(** * markityper: the unified token stream of [src/index.mjs]

    A shallow embedding of the scanner [createUnifiedStreamSync], of its
    helpers ([graphemes], [isWS], [readWS], [matchLineSyntax]) and of
    [toClosingTag], followed by the properties of the specification.

    A JavaScript string is a sequence of UTF-16 code units; it is modelled as
    a list of code units ([N]).  [src[i]] is the partial lookup [src !! i]
    ([None] stands for [undefined]). *)

From Stdlib Require Import NArith Ascii String Sorted.
From stdpp Require Import base list.

Local Open Scope N_scope.
Local Open Scope nat_scope.

(** ** JavaScript strings *)

Abbreviation jsstring := (list N).

(** An ASCII literal as a JavaScript string. *)
Definition js (s : string) : jsstring :=
  map N_of_ascii (list_ascii_of_string s).

(** Lines of ASCII text, joined by newlines. *)
Fixpoint js_lines (ls : list string) : jsstring :=
  match ls with
  | [] => []
  | l :: rest =>
      match rest with
      | [] => js l
      | _ :: _ => js l ++ 10%N :: js_lines rest
      end
  end.

(** [src[i] === c] for a one-unit literal [c]. *)
Definition is_ch (o : option N) (c : N) : bool :=
  match o with
  | Some d => N.eqb d c
  | None => false
  end.

(** [src.slice(a, b)] for [0 <= a]; [src.slice(a)] is [drop a src]. *)
Definition slice (a b : nat) (src : jsstring) : jsstring :=
  take (b - a) (drop a src).

(** [p] is a prefix of [s], decided unit by unit. *)
Fixpoint prefixb (p s : jsstring) : bool :=
  match p, s with
  | [], _ => true
  | c :: p', d :: s' => N.eqb c d && prefixb p' s'
  | _ :: _, [] => false
  end.

(** [src.startsWith(p, i)] *)
Definition startsWith (p : jsstring) (i : nat) (src : jsstring) : bool :=
  prefixb p (drop i src).

(** [s.endsWith(p)] *)
Definition endsWith (p : jsstring) (s : jsstring) : bool :=
  prefixb (rev p) (rev s).

(** The length of the longest prefix of [s] whose units all satisfy [p]: what
    a loop [while (p(src[j])) j++] adds to [j] when it runs over [s]. *)
Fixpoint run_length (p : N -> bool) (s : jsstring) : nat :=
  match s with
  | c :: s' => if p c then S (run_length p s') else 0
  | [] => 0
  end.

(** [src.indexOf(c, from)]: the first index [>= from] that holds [c];
    [None] stands for [-1]. *)
Fixpoint find_from (c : N) (s : jsstring) (pos : nat) : option nat :=
  match s with
  | [] => None
  | d :: s' => if N.eqb d c then Some pos else find_from c s' (S pos)
  end.

Definition indexOf (c : N) (from : nat) (src : jsstring) : option nat :=
  find_from c (drop from src) from.

(** Code units of the characters the scanner names. *)
Definition SPACE : N := 32.
Definition TAB : N := 9.
Definition LF : N := 10.
Definition CR : N := 13.
Definition HASH : N := 35.
Definition GT : N := 62.
Definition LT : N := 60.
Definition SLASH : N := 47.
Definition DASH : N := 45.
Definition PLUS : N := 43.
Definition STAR : N := 42.
Definition DOT : N := 46.
Definition RPAREN : N := 41.
Definition BACKTICK : N := 96.
Definition UNDERSCORE : N := 95.
Definition COLON : N := 58.

(** ** Graphemes (lines 12-21) *)

(** [Intl.Segmenter], when the host has one: the segments of a string. *)
Record Segmenter := { segment : jsstring -> list jsstring }.

Definition isLeadSurrogate (c : N) : bool := (N.leb 0xD800 c && N.leb c 0xDBFF)%N.
Definition isTrailSurrogate (c : N) : bool := (N.leb 0xDC00 c && N.leb c 0xDFFF)%N.

(** The fallback [for (const ch of str) yield ch]: the string iterator yields
    code points, a surrogate pair as one two-unit string. *)
Fixpoint codepoints (s : jsstring) : list jsstring :=
  match s with
  | [] => []
  | c :: rest =>
      match rest with
      | d :: rest' =>
          if isLeadSurrogate c && isTrailSurrogate d
          then [c; d] :: codepoints rest'
          else [c] :: codepoints rest
      | [] => [[c]]
      end
  end.

(** [graphemes(str)], collected; [seg] is [Some] exactly when HAS_SEGMENTER. *)
Definition graphemes (seg : option Segmenter) (str : jsstring) : list jsstring :=
  match seg with
  | Some sg => segment sg str
  | None => codepoints str
  end.

(** ** Whitespace (lines 23-28) *)

Definition isWS (c : N) : bool :=
  N.eqb c SPACE || N.eqb c TAB || N.eqb c LF || N.eqb c CR.

(** [isWS(src[i])]; [undefined] is not whitespace. *)
Definition isWS_at (o : option N) : bool :=
  match o with
  | Some c => isWS c
  | None => false
  end.

Definition readWS (src : jsstring) (i : nat) : nat :=
  run_length isWS (drop i src).

(** ** toClosingTag (lines 40-55) *)

(** The white space of [String.prototype.trim] and of the regex class [\s]:
    WhiteSpace and LineTerminator code units. *)
Definition isJSSpace (c : N) : bool :=
  (N.eqb c 9 || N.eqb c 10 || N.eqb c 11 || N.eqb c 12 || N.eqb c 13
   || N.eqb c 32 || N.eqb c 0xA0 || N.eqb c 0x1680
   || (N.leb 0x2000 c && N.leb c 0x200A)
   || N.eqb c 0x2028 || N.eqb c 0x2029 || N.eqb c 0x202F
   || N.eqb c 0x205F || N.eqb c 0x3000 || N.eqb c 0xFEFF)%N.

Definition trimStart (s : jsstring) : jsstring :=
  drop (run_length isJSSpace s) s.

Definition trim (s : jsstring) : jsstring :=
  rev (trimStart (rev (trimStart s))).

(** The class [[a-zA-Z0-9:-]]. *)
Definition isTagNameChar (c : N) : bool :=
  ((N.leb 97 c && N.leb c 122) || (N.leb 65 c && N.leb c 90)
   || (N.leb 48 c && N.leb c 57) || N.eqb c COLON || N.eqb c DASH)%N.

(** [/^<\s*([a-zA-Z0-9:-]+)/.exec(s)]: the first group of the match, if any.
    The two classes are disjoint, so the greedy [\s*] takes the whole run of
    white space and the group the whole run of name units that follows. *)
Definition execTagName (s : jsstring) : option jsstring :=
  match s with
  | c :: rest =>
      if N.eqb c LT then
        let rest' := drop (run_length isJSSpace rest) rest in
        let n := run_length isTagNameChar rest' in
        if Nat.eqb n 0 then None else Some (take n rest')
      else None
  | [] => None
  end.

(** The argument is a string here; the source returns [''] for any other
    type of value. *)
Definition toClosingTag (opening : jsstring) : jsstring :=
  let s := trim opening in
  if negb (startsWith [LT] 0 s) || negb (endsWith [GT] s) then []
  else if startsWith [LT; SLASH] 0 s || endsWith [SLASH; GT] s then []
  else
    match execTagName s with
    | None => []
    | Some tag => [LT; SLASH] ++ tag ++ [GT]
    end.

(** ** Line syntax (lines 59-97) *)

Record LineMatch := {
  m_value : jsstring;
  m_len : nat;
  isFence : bool
}.

Definition isDigit (c : N) : bool := (N.leb 48 c && N.leb c 57)%N.

(** [/\d/.test(src[j])]; [undefined] has no digit. *)
Definition isDigit_at (o : option N) : bool :=
  match o with
  | Some c => isDigit c
  | None => false
  end.

Definition hashes (n : nat) : jsstring := replicate n HASH.

(** One of the six heading tests:
    [src.startsWith('#'^n, i) && src[i + n] === ' '] *)
Definition headingAt (n : nat) (src : jsstring) (i : nat) : bool :=
  startsWith (hashes n) i src && is_ch (src !! (i + n)) SPACE.

Definition headingMatch (n : nat) : LineMatch :=
  {| m_value := hashes n ++ [SPACE]; m_len := n + 1; isFence := false |}.

(** Lines 61-66: ATX headings, the longest first. *)
Definition matchHeading (src : jsstring) (i : nat) : option LineMatch :=
  if headingAt 6 src i then Some (headingMatch 6)
  else if headingAt 5 src i then Some (headingMatch 5)
  else if headingAt 4 src i then Some (headingMatch 4)
  else if headingAt 3 src i then Some (headingMatch 3)
  else if headingAt 2 src i then Some (headingMatch 2)
  else if headingAt 1 src i then Some (headingMatch 1)
  else None.

(** Lines 69-73: block quote, one or more ['>'] then a space. *)
Definition matchQuote (src : jsstring) (i : nat) : option LineMatch :=
  if is_ch (src !! i) GT then
    let j := i + run_length (fun c => N.eqb c GT) (drop i src) in
    if is_ch (src !! j) SPACE
    then Some {| m_value := slice i (j + 1) src; m_len := j - i + 1;
                 isFence := false |}
    else None
  else None.

(** Lines 76-77: unordered list markers. *)
Definition matchBullet (src : jsstring) (i : nat) : option LineMatch :=
  if (is_ch (src !! i) DASH || is_ch (src !! i) PLUS || is_ch (src !! i) STAR)
     && is_ch (src !! (i + 1)) SPACE
  then Some {| m_value := slice i (i + 2) src; m_len := 2; isFence := false |}
  else None.

(** Lines 80-85: ordered list, digits then ['.'] or [')'] then a space. *)
Definition matchOrdered (src : jsstring) (i : nat) : option LineMatch :=
  if isDigit_at (src !! i) then
    let j := i + run_length isDigit (drop i src) in
    if (is_ch (src !! j) DOT || is_ch (src !! j) RPAREN)
       && is_ch (src !! (j + 1)) SPACE
    then Some {| m_value := slice i (j + 2) src; m_len := j - i + 2;
                 isFence := false |}
    else None
  else None.

Definition FENCE : jsstring := [BACKTICK; BACKTICK; BACKTICK].

(** Lines 88-94: a fence line, up to and with its newline.  [src[j]] is
    truthy for every unit of the string. *)
Definition matchFence (src : jsstring) (i : nat) : option LineMatch :=
  if startsWith FENCE i src then
    let j := i + 3 + run_length (fun c => negb (N.eqb c LF)) (drop (i + 3) src) in
    let value := slice i j src ++ (if is_ch (src !! j) LF then [LF] else []) in
    Some {| m_value := value; m_len := length value; isFence := true |}
  else None.

(** The first of two attempts that matches: the early [return]s of the
    source. *)
Definition orElse {A} (a b : option A) : option A :=
  match a with
  | Some x => Some x
  | None => b
  end.

Definition matchLineSyntax (src : jsstring) (i : nat) : option LineMatch :=
  orElse (matchHeading src i)
    (orElse (matchQuote src i)
       (orElse (matchBullet src i)
          (orElse (matchOrdered src i) (matchFence src i)))).

(** ** Tokens, marks, options and the scanner state (lines 99-119) *)

Inductive TokenType := Syntax | Display.

Inductive TokenKind := KLine | KOpen | KClose | KDefault | KWhitespace.

Record Token := {
  type : TokenType;
  kind : TokenKind;
  value : jsstring
}.

Inductive Mark := STRONG | EM | UNDER | CODE.

Definition closeFor (k : Mark) : jsstring :=
  match k with
  | STRONG => [STAR; STAR]
  | EM => [STAR]
  | UNDER => [UNDERSCORE]
  | CODE => [BACKTICK]
  end.

Definition Mark_eqb (a b : Mark) : bool :=
  match a, b with
  | STRONG, STRONG | EM, EM | UNDER, UNDER | CODE, CODE => true
  | _, _ => false
  end.

(** [opts]: the one option read, absent ([undefined] or [null]) or given. *)
Record Options := { includeTrailingSpaceInLineSyntax : option bool }.

Definition defaultOptions : Options :=
  {| includeTrailingSpaceInLineSyntax := None |}.

(** [opts.includeTrailingSpaceInLineSyntax ?? true] *)
Definition includeSpace (opts : Options) : bool :=
  match includeTrailingSpaceInLineSyntax opts with
  | Some b => b
  | None => true
  end.

(** The local variables of the generator.  [stack] is a JavaScript array:
    [push] appends, [pop] removes the last element and
    [stack[stack.length - 1]] is the last element. *)
Record State := {
  stack : list Mark;
  i : nat;
  inFence : bool
}.

Definition initialState : State :=
  {| stack := []; i := 0; inFence := false |}.

(** [stack[stack.length - 1] === k] *)
Definition top_is (st : list Mark) (k : Mark) : bool :=
  match last st with
  | Some k' => Mark_eqb k' k
  | None => false
  end.

Definition push (k : Mark) (st : list Mark) : list Mark := st ++ [k].
Definition pop (st : list Mark) : list Mark := removelast st.

(** [m.value.replace(/ $/, '')]: a space that ends the string is removed. *)
Fixpoint replaceTrailingSpace (s : jsstring) : jsstring :=
  match s with
  | [] => []
  | c :: rest =>
      match rest with
      | [] => if N.eqb c SPACE then [] else [c]
      | _ :: _ => c :: replaceTrailingSpace rest
      end
  end.

(** ** The scanner (lines 113-253) *)

Section Scanner.

(** The host's segmenter, the source text and the options of one scan. *)
Variable seg : option Segmenter.
Variable src : jsstring.
Variable opts : Options.

Definition atLineStart (pos : nat) : bool :=
  Nat.eqb pos 0 || is_ch (src !! (pos - 1)) LF.

Definition inInlineCode (st : State) : bool := top_is (stack st) CODE.

Definition advance (st : State) (n : nat) : State :=
  {| stack := stack st; i := i st + n; inFence := inFence st |}.

(** Step 1 (lines 128-145): line syntax at start of line.  [None] when the
    loop body goes on to the later steps. *)
Definition lineStep (st : State) : option (Token * State) :=
  if atLineStart (i st) then
    match matchLineSyntax src (i st) with
    | Some m =>
        if isFence m then
          Some ({| type := Syntax; kind := KLine; value := m_value m |},
                {| stack := stack st; i := i st + m_len m;
                   inFence := negb (inFence st) |})
        else if negb (inFence st) then
          let value := if includeSpace opts then m_value m
                       else replaceTrailingSpace (m_value m) in
          Some ({| type := Syntax; kind := KLine; value := value |},
                advance st (length value))
        else None
    | None => None
    end
  else None.

(** Lines 150-161 and again 240-251: a run of white space, or else one
    grapheme.  [None] is the TypeError of [g.length] when the segmenter
    yields nothing for a non-empty slice. *)
Definition displayStep (st : State) : option (Token * State) :=
  if isWS_at (src !! i st) then
    let len := readWS src (i st) in
    let run := slice (i st) (i st + len) src in
    Some ({| type := Display; kind := KWhitespace; value := run |},
          advance st len)
  else
    match head (graphemes seg (drop (i st) src)) with
    | Some g =>
        Some ({| type := Display; kind := KDefault; value := g |},
              advance st (length g))
    | None => None
    end.

(** Step 2.5 (lines 165-176): HTML tags. *)
Definition htmlStep (st : State) : option (Token * State) :=
  if negb (inInlineCode st) && is_ch (src !! i st) LT then
    match indexOf GT (i st + 1) src with
    | Some closeIdx =>
        let tagText := slice (i st) (closeIdx + 1) src in
        let isClose := startsWith [LT; SLASH] 0 tagText in
        Some ({| type := Syntax; kind := if isClose then KClose else KOpen;
                 value := tagText |},
              {| stack := stack st; i := closeIdx + 1; inFence := inFence st |})
    | None => None
    end
  else None.

(** One of the four toggles of step 3: close the mark on top of the stack,
    or else open a new one. *)
Definition toggle (k : Mark) (delim : jsstring) (st : State) : Token * State :=
  if top_is (stack st) k then
    ({| type := Syntax; kind := KClose; value := delim |},
     {| stack := pop (stack st); i := i st + length delim;
        inFence := inFence st |})
  else
    ({| type := Syntax; kind := KOpen; value := delim |},
     {| stack := push k (stack st); i := i st + length delim;
        inFence := inFence st |}).

(** Step 3 (lines 179-236): inline marks. *)
Definition markStep (st : State) : option (Token * State) :=
  let ch := src !! i st in
  let next := src !! (i st + 1) in
  if negb (inInlineCode st) then
    if is_ch ch STAR && is_ch next STAR then Some (toggle STRONG [STAR; STAR] st)
    else if is_ch ch STAR && negb (is_ch next STAR) then Some (toggle EM [STAR] st)
    else if is_ch ch UNDERSCORE then Some (toggle UNDER [UNDERSCORE] st)
    else if is_ch ch BACKTICK then Some (toggle CODE [BACKTICK] st)
    else None
  else
    if is_ch ch BACKTICK then
      Some ({| type := Syntax; kind := KClose; value := [BACKTICK] |},
            {| stack := pop (stack st); i := i st + 1; inFence := inFence st |})
    else None.

(** One turn of the [while] loop, for [i < src.length]: the token yielded
    and the state at the next turn. *)
Definition step (st : State) : option (Token * State) :=
  match lineStep st with
  | Some r => Some r
  | None =>
      if inFence st then displayStep st
      else
        match htmlStep st with
        | Some r => Some r
        | None =>
            match markStep st with
            | Some r => Some r
            | None => displayStep st
            end
        end
  end.

(** The loop, with the state before each yield kept next to the token.
    [None]: the fuel ran out, or a turn raised. *)
Fixpoint scan (fuel : nat) (st : State) : option (list (State * Token)) :=
  if Nat.leb (length src) (i st) then Some []
  else
    match fuel with
    | 0 => None
    | S fuel' =>
        match step st with
        | Some (tok, st') =>
            match scan fuel' st' with
            | Some rest => Some ((st, tok) :: rest)
            | None => None
            end
        | None => None
        end
    end.

(** Every turn consumes a unit, so [src.length] turns are enough. *)
Definition trace : option (list (State * Token)) :=
  scan (length src) initialState.

Definition createUnifiedStreamSync : option (list Token) :=
  match trace with
  | Some tr => Some (map snd tr)
  | None => None
  end.

(** Lines 256-261: every token is passed on as it comes. *)
Definition createUnifiedStream : option (list Token) :=
  createUnifiedStreamSync.

(** The token holds the text from the cursor to the next cursor, and that
    text is not empty. *)
Definition consumes (st : State) (tok : Token) (st' : State) : Prop :=
  (exists r, drop (i st) src = value tok ++ r)
  /\ i st' = i st + length (value tok)
  /\ value tok <> [].

(** The turns of the loop from a state on, as a relation: each entry is the
    state before a turn with the token of that turn. *)
Inductive run_from : State -> list (State * Token) -> Prop :=
| run_done st :
    length src <= i st -> run_from st []
| run_turn st tok st' rest :
    i st < length src ->
    step st = Some (tok, st') ->
    run_from st' rest ->
    run_from st ((st, tok) :: rest).

(** The branch a turn took. *)
Inductive branch (st : State) (tok : Token) (st' : State) : Prop :=
| branch_line :
    lineStep st = Some (tok, st') -> branch st tok st'
| branch_fenced :
    lineStep st = None -> inFence st = true ->
    displayStep st = Some (tok, st') -> branch st tok st'
| branch_html :
    lineStep st = None -> inFence st = false ->
    htmlStep st = Some (tok, st') -> branch st tok st'
| branch_mark :
    lineStep st = None -> inFence st = false ->
    htmlStep st = None ->
    markStep st = Some (tok, st') -> branch st tok st'
| branch_display :
    lineStep st = None -> inFence st = false ->
    htmlStep st = None -> markStep st = None ->
    displayStep st = Some (tok, st') -> branch st tok st'.

End Scanner.

(** The values of a token sequence, joined. *)
Definition joined (toks : list Token) : jsstring :=
  concat (map value toks).

Definition mkTok (t : TokenType) (k : TokenKind) (s : string) : Token :=
  {| type := t; kind := k; value := js s |}.

(** ** Well-behaved segmenters *)

(** What the scanner relies on in [Intl.Segmenter]: the segments of a string
    are non-empty and, put together, give the string back. *)
Definition segmenter_ok (sg : Segmenter) : Prop :=
  forall s, concat (segment sg s) = s /\ Forall (fun g => g <> []) (segment sg s).

Definition graphemes_ok (seg : option Segmenter) : Prop :=
  match seg with
  | Some sg => segmenter_ok sg
  | None => True
  end.

(** A line token. *)
Definition lineToken (v : jsstring) : Token :=
  {| type := Syntax; kind := KLine; value := v |}.

(** A whitespace token. *)
Definition wsToken (v : jsstring) : Token :=
  {| type := Display; kind := KWhitespace; value := v |}.

(** ** Shapes of line markers *)

(** The shapes of a match: the text [s] at the cursor, and what the matcher
    returns for it. *)
Inductive line_shape : jsstring -> LineMatch -> Prop :=
| shape_heading n r :
    1 <= n <= 6 ->
    line_shape (hashes n ++ SPACE :: r) (headingMatch n)
| shape_quote body r :
    body <> [] -> forallb (fun c => N.eqb c GT) body = true ->
    line_shape (body ++ SPACE :: r)
      {| m_value := body ++ [SPACE]; m_len := length body + 1; isFence := false |}
| shape_bullet c r :
    c = DASH \/ c = PLUS \/ c = STAR ->
    line_shape (c :: SPACE :: r)
      {| m_value := [c; SPACE]; m_len := 2; isFence := false |}
| shape_ordered ds d r :
    ds <> [] -> forallb isDigit ds = true -> d = DOT \/ d = RPAREN ->
    line_shape (ds ++ d :: SPACE :: r)
      {| m_value := ds ++ [d; SPACE]; m_len := length ds + 2; isFence := false |}
| shape_fence info rest :
    forallb (fun c => negb (N.eqb c LF)) info = true ->
    (rest = [] \/ exists r, rest = LF :: r) ->
    line_shape (FENCE ++ info ++ rest)
      {| m_value := FENCE ++ info ++ take 1 rest;
         m_len := length (FENCE ++ info ++ take 1 rest); isFence := true |}.

(** The units of a marker that is not a fence line, its last space apart. *)
Definition isMarkerUnit (c : N) : bool :=
  N.eqb c HASH || N.eqb c GT || N.eqb c DASH || N.eqb c PLUS || N.eqb c STAR
  || isDigit c || N.eqb c DOT || N.eqb c RPAREN.

(** ** Fenced regions *)

(** A fence line among the tokens: a line token that begins with three
    backticks.  No other line marker begins with a backtick. *)
Definition isFenceLine (tok : Token) : bool :=
  match type tok, kind tok with
  | Syntax, KLine => startsWith FENCE 0 (value tok)
  | _, _ => false
  end.

(** Reading a token sequence from the left, with the fence flag turned over
    at each fence line: every other token met while the flag is up is a
    display token. *)
Fixpoint fence_sanctity (fenced : bool) (toks : list Token) : bool :=
  match toks with
  | [] => true
  | tok :: rest =>
      if isFenceLine tok then fence_sanctity (negb fenced) rest
      else (if fenced then match type tok with Display => true | Syntax => false end
            else true)
           && fence_sanctity fenced rest
  end.

(** What Unicode grapheme segmentation does on ASCII text: a unit below 128
    that is followed by another one is a cluster of its own, but for CR
    before LF. *)
Definition ascii_clusters (sg : Segmenter) : Prop :=
  forall c d r,
    (c < 128)%N -> (d < 128)%N -> c <> CR \/ d <> LF ->
    head (segment sg (c :: d :: r)) = Some [c].

Definition graphemes_ascii (seg : option Segmenter) : Prop :=
  match seg with
  | Some sg => segmenter_ok sg /\ ascii_clusters sg
  | None => True
  end.

(** ** Statements of the specification that the code does not meet *)

(** [a, b) is a maximal run of white space of the source. *)
Definition ws_run (src : jsstring) (a b : nat) : Prop :=
  a < b <= length src
  /\ (forall k, a <= k < b -> isWS_at (src !! k) = true)
  /\ (a = 0 \/ isWS_at (src !! (a - 1)) = false)
  /\ isWS_at (src !! b) = false.

(** C5 as it is stated: every maximal run of white space of the source is
    one whitespace token of the scan. *)
Definition clumping_claim (seg : option Segmenter) (src : jsstring)
    (opts : Options) : Prop :=
  forall tr a b,
    trace seg src opts = Some tr -> ws_run src a b ->
    exists st, (st, wsToken (slice a b src)) ∈ tr /\ i st = a.




(** C10 as it is stated: wherever the cursor is at a start of line with the
    code-span mark on top of the stack and a marker matches, the token of
    that turn is a line token. *)
Definition code_span_line_claim (seg : option Segmenter) (src : jsstring)
    (opts : Options) : Prop :=
  forall tr st tok m,
    trace seg src opts = Some tr -> (st, tok) ∈ tr ->
    inInlineCode st = true -> atLineStart src (i st) = true ->
    matchLineSyntax src (i st) = Some m ->
    type tok = Syntax /\ kind tok = KLine.

(** C8 as it is stated: with the option false, wherever the cursor of a turn
    is at a start of line and a marker other than a fence matches, the turn
    emits the line token of the marker without its trailing space and moves
    the cursor by that shorter length. *)
Definition trailing_space_claim (seg : option Segmenter) (src : jsstring)
    (opts : Options) : Prop :=
  forall tr st tok m,
    trace seg src opts = Some tr -> (st, tok) ∈ tr ->
    includeSpace opts = false ->
    atLineStart src (i st) = true ->
    matchLineSyntax src (i st) = Some m -> isFence m = false ->
    exists marker,
      m_value m = marker ++ [SPACE]
      /\ tok = lineToken marker
      /\ step seg src opts st = Some (tok, advance st (length marker)).

(** ** The mark stack, the fence flag and the kinds of tokens *)

(** No mark lies on a mark of the same kind, and nothing lies on the
    code-span mark. *)
Fixpoint stack_ok (s : list Mark) : bool :=
  match s with
  | a :: rest =>
      match rest with
      | b :: _ => negb (Mark_eqb a b) && negb (Mark_eqb a CODE) && stack_ok rest
      | [] => true
      end
  | [] => true
  end.

(** The fence flag after a sequence of tokens, read off the tokens: each
    fence line turns it over. *)
Fixpoint flag_after (fenced : bool) (toks : list Token) : bool :=
  match toks with
  | [] => fenced
  | tok :: rest => flag_after (if isFenceLine tok then negb fenced else fenced) rest
  end.

(** The units with which a token of each kind begins, and where a line
    token sits. *)
Definition kind_fits (src : jsstring) (st : State) (tok : Token) : Prop :=
  match kind tok with
  | KLine =>
      type tok = Syntax /\ atLineStart src (i st) = true
      /\ exists c, head (value tok) = Some c
                   /\ (isMarkerUnit c = true \/ c = BACKTICK)
  | KOpen | KClose =>
      type tok = Syntax
      /\ exists c, head (value tok) = Some c
                   /\ (c = LT \/ c = STAR \/ c = UNDERSCORE \/ c = BACKTICK)
  | KWhitespace =>
      type tok = Display /\ value tok <> [] /\ forallb isWS (value tok) = true
  | KDefault =>
      type tok = Display
      /\ exists c, head (value tok) = Some c /\ isWS c = false
  end.

(** A segmenter to try the statements on: every code unit is a segment. *)
Definition unitSegmenter : Segmenter :=
  {| segment := map (fun c => [c]) |}.

(** The position [p] lies between the two halves of a surrogate pair. *)
Definition splits_pair (src : jsstring) (p : nat) : Prop :=
  0 < p
  /\ exists c d, src !! (p - 1) = Some c /\ src !! p = Some d
                 /\ isLeadSurrogate c = true /\ isTrailSurrogate d = true.

(** A piece of the fallback: one code unit, or a lead and a trail
    surrogate. *)
Definition code_point (g : jsstring) : Prop :=
  (exists c, g = [c])
  \/ (exists c d, g = [c; d] /\ isLeadSurrogate c = true
                  /\ isTrailSurrogate d = true).

(** The open and the close tokens of inline marks: those that do not begin
    with '<'. *)
Definition isMarkOpen (tok : Token) : bool :=
  match kind tok with
  | KOpen => negb (is_ch (head (value tok)) LT)
  | _ => false
  end.

Definition isMarkClose (tok : Token) : bool :=
  match kind tok with
  | KClose => negb (is_ch (head (value tok)) LT)
  | _ => false
  end.

Fixpoint count_tokens (p : Token -> bool) (toks : list Token) : nat :=
  match toks with
  | [] => 0
  | tok :: rest => (if p tok then 1 else 0) + count_tokens p rest
  end.

(** * Properties *)

(** ** Strings *)

Lemma is_ch_Some o c : is_ch o c = true <-> o = Some c.
Proof.
  destruct o as [d|]; simpl; [|split; discriminate].
  rewrite N.eqb_eq. split; congruence.
Qed.

Lemma prefixb_spec p s : prefixb p s = true <-> exists r, s = p ++ r.
Proof.
  revert s. induction p as [|c p IH]; intros s; simpl.
  - split; eauto.
  - destruct s as [|d s].
    + split; [discriminate | intros [r Hr]; discriminate].
    + rewrite andb_true_iff, N.eqb_eq, IH. split.
      * intros [-> [r ->]]. eauto.
      * intros [r Hr]. injection Hr as -> ->. eauto.
Qed.

Lemma run_length_le p s : run_length p s <= length s.
Proof. induction s as [|c s IH]; simpl; [lia|]. destruct (p c); simpl; lia. Qed.

Lemma run_length_take p s : forallb p (take (run_length p s) s) = true.
Proof.
  induction s as [|c s IH]; simpl; [done|].
  destruct (p c) eqn:E; simpl; [|done]. by rewrite E, IH.
Qed.

Lemma run_length_stop p s :
  match s !! run_length p s with
  | Some c => p c = false
  | None => True
  end.
Proof.
  induction s as [|c s IH]; simpl; [done|].
  destruct (p c) eqn:E; simpl; done.
Qed.

Lemma run_length_app p a b :
  forallb p a = true ->
  run_length p (a ++ b) = length a + run_length p b.
Proof.
  induction a as [|c a IH]; simpl; [done|].
  intros [E Ha]%andb_true_iff. rewrite E. by rewrite IH.
Qed.

Lemma find_from_spec c s pos k :
  find_from c s pos = Some k ->
  pos <= k /\ s !! (k - pos) = Some c
  /\ forall j, j < k - pos -> s !! j <> Some c.
Proof.
  revert pos. induction s as [|d s IH]; intros pos; simpl; [discriminate|].
  destruct (N.eqb d c) eqn:E.
  - intros [= <-]. apply N.eqb_eq in E as ->.
    rewrite Nat.sub_diag. repeat split; [lia | intros j Hj; lia].
  - intros H. apply IH in H as (Hle & Hk & Hmin).
    apply N.eqb_neq in E.
    replace (k - pos) with (S (k - S pos)) by lia.
    repeat split; [lia | done |].
    intros [|j] Hj; simpl; [congruence | apply Hmin; lia].
Qed.

Lemma find_from_None c s pos :
  find_from c s pos = None -> forall j, s !! j <> Some c.
Proof.
  revert pos. induction s as [|d s IH]; intros pos; simpl.
  - intros _ [|j]; done.
  - destruct (N.eqb d c) eqn:E; [discriminate|].
    intros H [|j]; simpl; [apply N.eqb_neq in E; congruence | eauto].
Qed.

Lemma slice_drop a b (s : jsstring) :
  slice a (a + b) s = take b (drop a s).
Proof. unfold slice. f_equal. lia. Qed.

(** ** Graphemes *)

Lemma codepoints_partition s :
  concat (codepoints s) = s /\ Forall (fun g => g <> []) (codepoints s).
Proof.
  enough (H : (concat (codepoints s) = s
               /\ Forall (fun g => g <> []) (codepoints s))
              /\ forall c, concat (codepoints (c :: s)) = c :: s
                      /\ Forall (fun g => g <> []) (codepoints (c :: s)))
    by apply H.
  induction s as [|d s [[IH1 IH2] IH3]].
  - repeat split; simpl; auto.
  - split; [apply IH3|]. intros c.
    change (codepoints (c :: d :: s))
      with (if isLeadSurrogate c && isTrailSurrogate d
            then [c; d] :: codepoints s else [c] :: codepoints (d :: s)).
    destruct (isLeadSurrogate c && isTrailSurrogate d).
    + split; [simpl; by rewrite IH1 | constructor; [done | apply IH2]].
    + destruct (IH3 d) as [E F].
      split; [rewrite concat_cons, E; done | constructor; [done | apply F]].
Qed.

Lemma graphemes_partition seg s :
  graphemes_ok seg ->
  concat (graphemes seg s) = s /\ Forall (fun g => g <> []) (graphemes seg s).
Proof.
  destruct seg as [sg|]; simpl; [intros H; apply H | intros _; apply codepoints_partition].
Qed.

(** The first grapheme of a non-empty string is a non-empty prefix of it. *)
Lemma graphemes_head seg s :
  graphemes_ok seg -> s <> [] ->
  exists g r, head (graphemes seg s) = Some g /\ g <> [] /\ s = g ++ r.
Proof.
  intros Hok Hs. destruct (graphemes_partition seg s Hok) as [Hc Hne].
  destruct (graphemes seg s) as [|g gs]; simpl in *; [congruence|].
  exists g, (concat gs). inversion Hne; subst. by repeat split.
Qed.

(** ** The line matcher *)

(** The matcher only looks at the text from [i] on. *)
Lemma matchLineSyntax_drop src i :
  matchLineSyntax src i = matchLineSyntax (drop i src) 0.
Proof.
  unfold matchLineSyntax, matchHeading, matchQuote, matchBullet, matchOrdered,
    matchFence, headingAt, startsWith, slice.
  rewrite !drop_0, !lookup_drop, !drop_drop.
  rewrite !Nat.add_0_l, !Nat.add_0_r, !Nat.sub_0_r, !Nat.add_assoc.
  set (rq := run_length (fun c => N.eqb c GT) (drop i src)).
  set (rd := run_length isDigit (drop i src)).
  set (rf := run_length _ (drop (i + 3) src)).
  replace (i + rq + 1 - i) with (rq + 1) by lia.
  replace (i + rq - i + 1) with (rq + 1) by lia.
  replace (i + rd + 2 - i) with (rd + 2) by lia.
  replace (i + rd - i + 2) with (rd + 2) by lia.
  replace (i + 3 + rf - i) with (3 + rf) by lia.
  replace (i + 2 - i) with 2 by lia.
  reflexivity.
Qed.

Lemma hashes_length n : length (hashes n) = n.
Proof. apply length_replicate. Qed.

Lemma headingAt_spec n s :
  headingAt n s 0 = true <-> exists r, s = hashes n ++ SPACE :: r.
Proof.
  unfold headingAt, startsWith. rewrite drop_0, andb_true_iff, prefixb_spec, is_ch_Some.
  simpl. split.
  - intros [[r ->] H]. rewrite lookup_app_r in H by (rewrite hashes_length; lia).
    rewrite hashes_length, Nat.sub_diag in H.
    destruct r as [|c r]; simplify_eq/=. eauto.
  - intros [r ->]. split; [eauto|].
    rewrite lookup_app_r by (rewrite hashes_length; lia).
    by rewrite hashes_length, Nat.sub_diag.
Qed.

Lemma run_length_split p s c :
  s !! run_length p s = Some c ->
  exists body r, s = body ++ c :: r /\ forallb p body = true
                 /\ length body = run_length p s /\ p c = false.
Proof.
  intros H. exists (take (run_length p s) s), (drop (S (run_length p s)) s).
  repeat split.
  - symmetry. by apply take_drop_middle.
  - apply run_length_take.
  - rewrite length_take. pose proof (run_length_le p s). lia.
  - pose proof (run_length_stop p s) as Hs. by rewrite H in Hs.
Qed.

Lemma take_app_one (body : jsstring) c r n :
  n = length body -> take (n + 1) (body ++ c :: r) = body ++ [c].
Proof.
  intros ->. rewrite (cons_middle c body r), app_assoc.
  apply take_app_length'. rewrite length_app. simpl. lia.
Qed.

Lemma matchHeading_sound s m :
  matchHeading s 0 = Some m -> line_shape s m.
Proof.
  unfold matchHeading.
  repeat match goal with
  | |- context [headingAt ?n s 0] =>
      let H := fresh in
      destruct (headingAt n s 0) eqn:H;
      [apply headingAt_spec in H as [r ->]; intros [= <-]; constructor; lia
      | clear H]
  end.
  discriminate.
Qed.

Lemma matchQuote_sound s m :
  matchQuote s 0 = Some m -> line_shape s m.
Proof.
  unfold matchQuote, slice. rewrite drop_0. simpl.
  destruct (is_ch (s !! 0) GT) eqn:Hq; [|discriminate].
  destruct (is_ch _ SPACE) eqn:Hsp; [|discriminate].
  intros [= <-]. apply is_ch_Some in Hsp.
  destruct (run_length_split _ _ _ Hsp) as (body & r & E & Hb & Hl & _).
  rewrite !Nat.sub_0_r, <- Hl. clear Hl Hsp. subst s.
  rewrite take_app_one by done. constructor; [|done].
  intros ->. discriminate.
Qed.

Lemma matchBullet_sound s m :
  matchBullet s 0 = Some m -> line_shape s m.
Proof.
  unfold matchBullet, slice. rewrite drop_0. simpl.
  destruct s as [|c [|d r]]; simpl; rewrite ?orb_false_r, ?andb_false_r; try discriminate.
  destruct (_ && _) eqn:H; [|discriminate]. intros [= <-].
  apply andb_true_iff in H as [H1 H2]. apply N.eqb_eq in H2 as ->.
  constructor. rewrite !orb_true_iff, !N.eqb_eq in H1. tauto.
Qed.

Lemma matchOrdered_sound s m :
  matchOrdered s 0 = Some m -> line_shape s m.
Proof.
  unfold matchOrdered, slice. rewrite drop_0. simpl.
  destruct (isDigit_at (s !! 0)) eqn:Hd; [|discriminate].
  destruct (_ && _) eqn:H; [|discriminate]. intros [= <-].
  apply andb_true_iff in H as [H1 H2].
  assert (exists d, s !! run_length isDigit s = Some d /\ (d = DOT \/ d = RPAREN))
    as (d & Hj & Hdd).
  { rewrite orb_true_iff, !is_ch_Some in H1. destruct H1; eauto. }
  destruct (run_length_split _ _ _ Hj) as (body & r & E & Hb & Hl & _).
  apply is_ch_Some in H2. rewrite <- Hl in *. clear Hl Hj H1. subst s.
  rewrite lookup_app_r in H2 by lia.
  replace (length body + 1 - length body) with 1 in H2 by lia.
  destruct r as [|sp r]; simplify_eq/=.
  rewrite !Nat.sub_0_r.
  assert (Ht : take (length body + 2) (body ++ d :: SPACE :: r) = body ++ [d; SPACE]).
  { change (body ++ d :: SPACE :: r) with (body ++ [d; SPACE] ++ r).
    rewrite app_assoc. apply take_app_length'. rewrite length_app. simpl. lia. }
  rewrite Ht. constructor; [|done|done].
  intros ->. simpl in Hd.
  destruct Hdd as [-> | ->]; discriminate.
Qed.

Lemma matchFence_sound s m :
  matchFence s 0 = Some m -> line_shape s m.
Proof.
  unfold matchFence, startsWith, slice. rewrite drop_0.
  destruct (prefixb FENCE s) eqn:Hp; [|discriminate].
  apply prefixb_spec in Hp as [t ->]. cbv zeta. intros [= <-].
  set (p := fun c => negb (N.eqb c LF)). rewrite !drop_0.
  assert (Hi := run_length_take p t).
  assert (Hs := run_length_stop p t).
  assert (Hk : (if is_ch (t !! run_length p t) LF then [LF] else [])
               = take 1 (drop (run_length p t) t)
               /\ (drop (run_length p t) t = []
                   \/ exists r, drop (run_length p t) t = LF :: r)).
  { destruct (t !! run_length p t) as [c|] eqn:Hc.
    - unfold p in Hs. apply negb_false_iff, N.eqb_eq in Hs as ->.
      apply drop_S in Hc. rewrite Hc. simpl. eauto.
    - apply lookup_ge_None in Hc. rewrite drop_ge by done. auto. }
  destruct Hk as [-> Hk].
  rewrite <- (take_drop (run_length p t) t) at 1.
  by apply (shape_fence (take (run_length p t) t) (drop (run_length p t) t)).
Qed.

Lemma matchLineSyntax_sound s m :
  matchLineSyntax s 0 = Some m -> line_shape s m.
Proof.
  unfold matchLineSyntax, orElse.
  destruct (matchHeading s 0) eqn:H1; [intros [= <-]; by apply matchHeading_sound|].
  destruct (matchQuote s 0) eqn:H2; [intros [= <-]; by apply matchQuote_sound|].
  destruct (matchBullet s 0) eqn:H3; [intros [= <-]; by apply matchBullet_sound|].
  destruct (matchOrdered s 0) eqn:H4; [intros [= <-]; by apply matchOrdered_sound|].
  apply matchFence_sound.
Qed.

Lemma line_shape_prefix s m :
  line_shape s m ->
  exists r, s = m_value m ++ r /\ m_len m = length (m_value m).
Proof.
  destruct 1 as [n r Hn | body r Hne Hb | c r Hc | ds d r Hne Hd Hdd | info rest Hi Hr];
    simpl.
  - exists r. rewrite <- app_assoc, length_app, hashes_length. done.
  - exists r. rewrite <- app_assoc, length_app. done.
  - exists r. done.
  - exists r. rewrite <- app_assoc, length_app. done.
  - exists (drop 1 rest). split; [|done].
    change (BACKTICK :: BACKTICK :: BACKTICK :: info ++ rest)
      with (FENCE ++ info ++ rest).
    change (BACKTICK :: BACKTICK :: BACKTICK :: (info ++ take 1 rest) ++ drop 1 rest)
      with (FENCE ++ (info ++ take 1 rest) ++ drop 1 rest).
    by rewrite <- app_assoc, take_drop.
Qed.

Lemma isDigit_range c : isDigit c = true <-> (48 <= c <= 57)%N.
Proof. unfold isDigit. rewrite andb_true_iff, !N.leb_le. done. Qed.

Lemma isMarkerUnit_cases c :
  isMarkerUnit c = true ->
  c = HASH \/ c = GT \/ c = DASH \/ c = PLUS \/ c = STAR
  \/ (48 <= c <= 57)%N \/ c = DOT \/ c = RPAREN.
Proof.
  unfold isMarkerUnit. rewrite !orb_true_iff, !N.eqb_eq, isDigit_range. tauto.
Qed.

(** A marker that is not a fence line is a non-empty body of marker units,
    then one space. *)
Lemma line_shape_marker s m :
  line_shape s m -> isFence m = false ->
  exists body, m_value m = body ++ [SPACE] /\ body <> []
               /\ forallb isMarkerUnit body = true.
Proof.
  destruct 1 as [n r Hn | body r Hne Hb | c r Hc | ds d r Hne Hd Hdd | info rest Hi Hr];
    simpl; intros Hf; try discriminate.
  - exists (hashes n). repeat split.
    + destruct n; [lia | done].
    + unfold hashes. clear. induction n; simpl; auto.
  - exists body. repeat split; [done|].
    clear -Hb. induction body as [|c b IH]; simpl in *; [done|].
    apply andb_true_iff in Hb as [->%N.eqb_eq Hb]. auto.
  - exists [c]. repeat split; [done|].
    destruct Hc as [-> | [-> | ->]]; done.
  - exists (ds ++ [d]). rewrite <- app_assoc. repeat split.
    + by destruct ds.
    + rewrite forallb_app. apply andb_true_iff. split.
      * clear -Hd. induction ds as [|c b IH]; simpl in *; [done|].
        apply andb_true_iff in Hd as [Hc Hd]. rewrite IH by done.
        unfold isMarkerUnit. rewrite Hc. by rewrite !orb_true_r.
      * destruct Hdd as [-> | ->]; done.
Qed.

Lemma line_shape_fence s m :
  line_shape s m -> isFence m = true ->
  exists info, m_value m = FENCE ++ info.
Proof.
  destruct 1; simpl; intros Hf; try discriminate. eauto.
Qed.

Lemma replaceTrailingSpace_marker body :
  body <> [] -> replaceTrailingSpace (body ++ [SPACE]) = body.
Proof.
  induction body as [|c b IH]; [done|]. intros _.
  destruct b as [|d b]; [done|].
  change (replaceTrailingSpace ((c :: d :: b) ++ [SPACE]))
    with (c :: replaceTrailingSpace ((d :: b) ++ [SPACE])).
  by rewrite IH.
Qed.

(** ** One turn of the loop *)

Section Steps.

Variable seg : option Segmenter.
Variable src : jsstring.
Variable opts : Options.
Hypothesis seg_ok : graphemes_ok seg.

Lemma lookup_drop_cons (s : jsstring) n c :
  s !! n = Some c -> drop n s = c :: drop (S n) s.
Proof. apply drop_S. Qed.

Lemma matchLineSyntax_shape pos m :
  matchLineSyntax src pos = Some m -> line_shape (drop pos src) m.
Proof. rewrite matchLineSyntax_drop. apply matchLineSyntax_sound. Qed.

Lemma lineStep_consumes st tok st' :
  lineStep src opts st = Some (tok, st') -> consumes src st tok st'.
Proof.
  unfold lineStep.
  destruct (atLineStart src (i st)); [|discriminate].
  destruct (matchLineSyntax src (i st)) as [m|] eqn:Hm; [|discriminate].
  apply matchLineSyntax_shape in Hm.
  destruct (line_shape_prefix _ _ Hm) as (r & Er & El).
  destruct (isFence m) eqn:Hf.
  - intros [= <- <-]. unfold consumes. simpl. split; [eauto|]. split; [lia|].
    destruct (line_shape_fence _ _ Hm Hf) as [info ->]. done.
  - destruct (negb (inFence st)); [|discriminate].
    destruct (line_shape_marker _ _ Hm Hf) as (body & Eb & Hne & _).
    intros [= <- <-]. unfold consumes. simpl. destruct (includeSpace opts).
    + split; [eauto|]. split; [done|]. rewrite Eb. by destruct body.
    + rewrite Eb, replaceTrailingSpace_marker by done.
      split; [|done]. exists ([SPACE] ++ r). rewrite Er, Eb.
      by rewrite <- app_assoc.
Qed.

Lemma displayStep_consumes st tok st' :
  i st < length src ->
  displayStep seg src st = Some (tok, st') -> consumes src st tok st'.
Proof.
  intros Hlt. unfold displayStep.
  destruct (isWS_at (src !! i st)) eqn:Hws.
  - intros [= <- <-]. unfold consumes. simpl.
    rewrite slice_drop. unfold readWS.
    set (s := drop (i st) src).
    assert (Hpos : 0 < run_length isWS s).
    { subst s. destruct (src !! i st) as [c|] eqn:Hc; [|done].
      rewrite (lookup_drop_cons _ _ _ Hc). simpl in *. rewrite Hws. lia. }
    pose proof (run_length_le isWS s).
    repeat split.
    + exists (drop (run_length isWS s) s). by rewrite take_drop.
    + rewrite length_take. lia.
    + intros E. apply (f_equal length) in E. rewrite length_take in E.
      simpl in E. lia.
  - destruct (graphemes_head seg (drop (i st) src) seg_ok) as (g & r & Hg & Hne & E).
    { intros E. apply (f_equal length) in E. rewrite length_drop in E.
      simpl in E. lia. }
    rewrite Hg. intros [= <- <-]. unfold consumes. simpl. eauto.
Qed.

Lemma displayStep_total st :
  i st < length src -> is_Some (displayStep seg src st).
Proof.
  intros Hlt. unfold displayStep.
  destruct (isWS_at (src !! i st)); [eauto|].
  destruct (graphemes_head seg (drop (i st) src) seg_ok) as (g & r & Hg & Hne & E).
  { intros E. apply (f_equal length) in E. rewrite length_drop in E.
    simpl in E. lia. }
  rewrite Hg. eauto.
Qed.

Lemma indexOf_spec c from s k :
  indexOf c from s = Some k ->
  from <= k /\ s !! k = Some c
  /\ forall j, from <= j < k -> s !! j <> Some c.
Proof.
  unfold indexOf. intros H. apply find_from_spec in H as (Hle & Hk & Hmin).
  rewrite lookup_drop in Hk. replace (from + (k - from)) with k in Hk by lia.
  repeat split; [done | done |].
  intros j Hj. specialize (Hmin (j - from)). rewrite lookup_drop in Hmin.
  replace (from + (j - from)) with j in Hmin by lia. apply Hmin. lia.
Qed.

Lemma indexOf_None c from s :
  indexOf c from s = None -> forall j, from <= j -> s !! j <> Some c.
Proof.
  unfold indexOf. intros H j Hj.
  pose proof (find_from_None _ _ _ H (j - from)) as Hn.
  rewrite lookup_drop in Hn. by replace (from + (j - from)) with j in Hn by lia.
Qed.

Lemma htmlStep_consumes st tok st' :
  htmlStep src st = Some (tok, st') -> consumes src st tok st'.
Proof.
  unfold htmlStep. destruct (_ && _); [|discriminate].
  destruct (indexOf GT (i st + 1) src) as [k|] eqn:Hk; [|discriminate].
  apply indexOf_spec in Hk as (Hle & Hk & _).
  apply lookup_lt_Some in Hk.
  intros [= <- <-]. unfold consumes, slice. simpl.
  assert (Hl : length (take (k + 1 - i st) (drop (i st) src)) = k + 1 - i st).
  { rewrite length_take, length_drop. lia. }
  repeat split.
  - exists (drop (k + 1 - i st) (drop (i st) src)). by rewrite take_drop.
  - rewrite Hl. lia.
  - intros E. rewrite E in Hl. simpl in Hl. lia.
Qed.

Lemma toggle_consumes k delim st tok st' :
  (exists r, drop (i st) src = delim ++ r) -> delim <> [] ->
  toggle k delim st = (tok, st') -> consumes src st tok st'.
Proof.
  intros Hd Hne. unfold toggle.
  destruct (top_is (stack st) k); intros [= <- <-]; by repeat split.
Qed.

Lemma markStep_consumes st tok st' :
  markStep src st = Some (tok, st') -> consumes src st tok st'.
Proof.
  unfold markStep.
  destruct (src !! i st) as [c|] eqn:Hc;
    [|simpl; rewrite !Tauto.if_same; discriminate].
  pose proof (lookup_drop_cons _ _ _ Hc) as Ec.
  destruct (negb (inInlineCode st)).
  - destruct (is_ch (Some c) STAR) eqn:H0; cbn [andb].
    { apply is_ch_Some in H0 as [= ->].
      destruct (is_ch (src !! (i st + 1)) STAR) eqn:H1; cbn [negb].
      - apply is_ch_Some in H1. rewrite Nat.add_1_r in H1.
        apply lookup_drop_cons in H1.
        intros [= H]. eapply toggle_consumes in H; [done | | done].
        rewrite Ec, H1. eauto.
      - intros [= H]. eapply toggle_consumes in H; [done | | done].
        rewrite Ec. by exists (drop (S (i st)) src). }
    destruct (is_ch (Some c) UNDERSCORE) eqn:H3.
    { apply is_ch_Some in H3 as [= ->].
      intros [= H]. eapply toggle_consumes in H; [done | | done].
      rewrite Ec. by exists (drop (S (i st)) src). }
    destruct (is_ch (Some c) BACKTICK) eqn:H4; [|discriminate].
    apply is_ch_Some in H4 as [= ->].
    intros [= H]. eapply toggle_consumes in H; [done | | done].
    rewrite Ec. by exists (drop (S (i st)) src).
  - destruct (is_ch (Some c) BACKTICK) eqn:H4; [|discriminate].
    apply is_ch_Some in H4 as [= ->].
    intros [= <- <-]. unfold consumes. simpl. repeat split; [|done].
    rewrite Ec. by exists (drop (S (i st)) src).
Qed.

Lemma step_consumes st tok st' :
  i st < length src ->
  step seg src opts st = Some (tok, st') -> consumes src st tok st'.
Proof.
  intros Hlt. unfold step.
  destruct (lineStep src opts st) as [r|] eqn:H1;
    [intros [= ->]; by apply lineStep_consumes|].
  destruct (inFence st); [by apply displayStep_consumes|].
  destruct (htmlStep src st) as [r|] eqn:H2;
    [intros [= ->]; by apply htmlStep_consumes|].
  destruct (markStep src st) as [r|] eqn:H3;
    [intros [= ->]; by apply markStep_consumes|].
  by apply displayStep_consumes.
Qed.

Lemma step_total st :
  i st < length src -> is_Some (step seg src opts st).
Proof.
  intros Hlt. unfold step.
  destruct (lineStep src opts st); [eauto|].
  destruct (inFence st); [by apply displayStep_total|].
  destruct (htmlStep src st); [eauto|].
  destruct (markStep src st); [eauto|].
  by apply displayStep_total.
Qed.

Lemma consumes_cursor st tok st' :
  consumes src st tok st' ->
  i st < i st' <= length src
  /\ value tok = slice (i st) (i st') src
  /\ drop (i st) src = value tok ++ drop (i st') src.
Proof.
  intros ([r Hr] & Hi & Hne).
  assert (Hlen : length (drop (i st) src) = length (value tok) + length r)
    by (rewrite Hr; apply length_app).
  rewrite length_drop in Hlen.
  assert (0 < length (value tok)) by (destruct (value tok); simpl; [done | lia]).
  assert (Hd : drop (i st') src = r).
  { rewrite Hi, <- drop_drop, Hr. by rewrite drop_app_length. }
  repeat split; [lia | lia | | by rewrite Hd].
  unfold slice. rewrite Hr, Hi.
  replace (i st + length (value tok) - i st) with (length (value tok)) by lia.
  by rewrite take_app_length.
Qed.

End Steps.

(** ** The whole scan *)

Section Runs.

Variable seg : option Segmenter.
Variable src : jsstring.
Variable opts : Options.

Lemma scan_run fuel st tr :
  scan seg src opts fuel st = Some tr -> run_from seg src opts st tr.
Proof.
  revert st tr. induction fuel as [|fuel IH]; intros st tr; simpl.
  - destruct (Nat.leb (length src) (i st)) eqn:E; [|discriminate].
    intros [= <-]. constructor. by apply Nat.leb_le.
  - destruct (Nat.leb (length src) (i st)) eqn:E.
    + intros [= <-]. constructor. by apply Nat.leb_le.
    + apply Nat.leb_gt in E.
      destruct (step seg src opts st) as [[tok st']|] eqn:Hs; [|discriminate].
      destruct (scan seg src opts fuel st') as [rest|] eqn:Hr; [|discriminate].
      intros [= <-]. econstructor; eauto.
Qed.

Lemma trace_run tr :
  trace seg src opts = Some tr -> run_from seg src opts initialState tr.
Proof. apply scan_run. Qed.

(** A property of every turn holds of every entry of a run. *)
Lemma run_from_Forall (P : State -> Token -> Prop) st tr :
  (forall s tok s', i s < length src ->
                    step seg src opts s = Some (tok, s') -> P s tok) ->
  run_from seg src opts st tr -> Forall (fun e => P e.1 e.2) tr.
Proof.
  intros HP. induction 1; constructor; simpl; eauto.
Qed.

Hypothesis seg_ok : graphemes_ok seg.

Lemma scan_total fuel st :
  length src - i st <= fuel -> is_Some (scan seg src opts fuel st).
Proof.
  revert st. induction fuel as [|fuel IH]; intros st Hf; simpl.
  - destruct (Nat.leb (length src) (i st)) eqn:E; [eauto|].
    apply Nat.leb_gt in E. lia.
  - destruct (Nat.leb (length src) (i st)) eqn:E; [eauto|].
    apply Nat.leb_gt in E.
    destruct (step_total seg src opts seg_ok st E) as [[tok st'] Hs].
    rewrite Hs.
    destruct (consumes_cursor src _ _ _
                (step_consumes seg src opts seg_ok _ _ _ E Hs)) as (Hi & _).
    destruct (IH st') as [rest Hr]; [lia|]. rewrite Hr. eauto.
Qed.

Lemma trace_total : is_Some (trace seg src opts).
Proof. apply scan_total. simpl. lia. Qed.

Lemma run_from_joined st tr :
  run_from seg src opts st tr -> i st <= length src ->
  joined (map snd tr) = drop (i st) src.
Proof.
  induction 1 as [st Hge | st tok st' rest Hlt Hs Hr IH]; intros Hle.
  - rewrite drop_ge by done. done.
  - destruct (consumes_cursor src _ _ _
                (step_consumes seg src opts seg_ok _ _ _ Hlt Hs))
      as (Hi & _ & Hd).
    unfold joined in *. simpl. rewrite IH by lia. by rewrite Hd.
Qed.

(** Cursors along a run: each entry starts where the one before it ends. *)
Lemma run_from_cursors st tr :
  run_from seg src opts st tr ->
  Forall (fun e => i st <= i e.1 /\ i e.1 < length src
                   /\ value e.2 <> []
                   /\ value e.2 = slice (i e.1) (i e.1 + length (value e.2)) src
                   /\ i e.1 + length (value e.2) <= length src) tr
  /\ Sorted lt (map (fun e => i e.1) tr)
  /\ length tr <= length src - i st.
Proof.
  induction 1 as [st Hge | st tok st' rest Hlt Hs Hr (IH1 & IH2 & IH3)].
  - repeat split; [constructor | constructor | simpl; lia].
  - pose proof (step_consumes seg src opts seg_ok _ _ _ Hlt Hs) as Hc.
    destruct (consumes_cursor src _ _ _ Hc) as (Hi & Hv & _).
    destruct Hc as (_ & Hi' & Hne).
    repeat split.
    + constructor; simpl.
      * repeat split; [lia | done | done | by rewrite <- Hi' | lia].
      * eapply Forall_impl; [exact IH1|]. simpl. intros e He. intuition lia.
    + simpl. constructor; [done|].
      destruct rest as [|e rest]; simpl; constructor.
      inversion IH1; subst. simpl in *. lia.
    + simpl. lia.
Qed.

End Runs.

(** * The claims *)

(** C1. Round-trip fidelity: with a well-behaved segmenter (or none), for
    every input string and every options value the scan runs to its end, and
    the values of the tokens that [createUnifiedStream] emits, joined in
    emission order, are the input string. *)
Theorem roundtrip_fidelity (seg : option Segmenter) (src : jsstring) (opts : Options) :
  graphemes_ok seg ->
  exists toks, createUnifiedStream seg src opts = Some toks /\ joined toks = src.
Proof.
  intros Hok. unfold createUnifiedStream, createUnifiedStreamSync.
  destruct (trace_total seg src opts Hok) as [tr Htr]. rewrite Htr.
  exists (map snd tr). split; [done|].
  apply trace_run in Htr.
  rewrite (run_from_joined seg src opts Hok _ _ Htr); simpl; [by rewrite drop_0 | lia].
Qed.

Lemma roundtrip_fidelity_witness :
  exists toks,
    createUnifiedStream None (js "# Hi *x* <b>y</b>") defaultOptions = Some toks
    /\ joined toks = js "# Hi *x* <b>y</b>".
Proof. apply (roundtrip_fidelity None); exact I. Defined.

(** C4. Progress and termination: with a well-behaved segmenter (or none),
    for every input and every options value, every turn of the loop yields a
    token whose value is not empty and moves the cursor forward by the length
    of that value; the scan ends, after at most [src.length] tokens, and the
    cursors at which its tokens were emitted are strictly increasing. *)
Theorem progress_and_termination (seg : option Segmenter) (src : jsstring)
    (opts : Options) :
  graphemes_ok seg ->
  (forall st, i st < length src ->
     exists tok st',
       step seg src opts st = Some (tok, st')
       /\ value tok <> []
       /\ i st' = i st + length (value tok)
       /\ i st < i st' <= length src)
  /\ exists tr,
       trace seg src opts = Some tr
       /\ createUnifiedStream seg src opts = Some (map snd tr)
       /\ Forall (fun e => value e.2 <> []) tr
       /\ Sorted lt (map (fun e => i e.1) tr)
       /\ length tr <= length src.
Proof.
  intros Hok. split.
  - intros st Hlt.
    destruct (step_total seg src opts Hok st Hlt) as [[tok st'] Hs].
    pose proof (step_consumes seg src opts Hok _ _ _ Hlt Hs) as Hc.
    destruct (consumes_cursor src _ _ _ Hc) as (Hi & _).
    destruct Hc as (_ & Hi' & Hne). eauto 10.
  - destruct (trace_total seg src opts Hok) as [tr Htr]. exists tr.
    destruct (run_from_cursors seg src opts Hok _ _ (trace_run _ _ _ _ Htr))
      as (HF & HS & HL).
    repeat split; [done | | | done | simpl in HL; lia].
    + unfold createUnifiedStream, createUnifiedStreamSync. by rewrite Htr.
    + eapply Forall_impl; [exact HF|]. simpl. tauto.
Qed.

Lemma progress_and_termination_witness :
  (forall st, i st < length (js "a  *b") ->
     exists tok st',
       step None (js "a  *b") defaultOptions st = Some (tok, st')
       /\ value tok <> []
       /\ i st' = i st + length (value tok)
       /\ i st < i st' <= length (js "a  *b"))
  /\ exists tr,
       trace None (js "a  *b") defaultOptions = Some tr
       /\ createUnifiedStream None (js "a  *b") defaultOptions = Some (map snd tr)
       /\ Forall (fun e => value e.2 <> []) tr
       /\ Sorted lt (map (fun e => i e.1) tr)
       /\ length tr <= length (js "a  *b").
Proof. apply (progress_and_termination None); exact I. Defined.

Lemma segmenter_single sg c :
  segmenter_ok sg -> head (segment sg [c]) = Some [c].
Proof.
  intros H. destruct (H [c]) as [Hc Hne].
  destruct (segment sg [c]) as [|g gs]; [done|].
  inversion Hne as [|? ? Hg Hgs]; subst. simpl in *.
  destruct g as [|x [|y g]]; [done | | done]. by injection Hc as ->.
Qed.

(** The segmenter is only asked for the first grapheme at the cursor. *)
Lemma step_seg_agree seg1 seg2 src opts st :
  head (graphemes seg1 (drop (i st) src)) = head (graphemes seg2 (drop (i st) src)) ->
  step seg1 src opts st = step seg2 src opts st.
Proof.
  intros H. unfold step, displayStep. by rewrite H.
Qed.

Lemma scan_seg_agree seg1 seg2 src opts fuel st :
  (forall p, p < length src ->
     head (graphemes seg1 (drop p src)) = head (graphemes seg2 (drop p src))) ->
  scan seg1 src opts fuel st = scan seg2 src opts fuel st.
Proof.
  intros H. revert st. induction fuel as [|fuel IH]; intros st; simpl; [done|].
  destruct (Nat.leb (length src) (i st)) eqn:E; [done|].
  apply Nat.leb_gt in E.
  rewrite (step_seg_agree seg1 seg2) by auto.
  destruct (step seg2 src opts st) as [[tok st']|]; [|done]. by rewrite IH.
Qed.

(** C9. End-to-end scenario: with the default options, and a segmenter that
    clusters ASCII text as Unicode does (or none), the input "# Hi *x*"
    yields line "# ", default "H", default "i", whitespace " ", open "*",
    default "x", close "*", in this order and nothing else. *)
Theorem end_to_end_scenario (seg : option Segmenter) :
  graphemes_ascii seg ->
  createUnifiedStream seg (js "# Hi *x*") defaultOptions
  = Some [ mkTok Syntax KLine "# ";
           mkTok Display KDefault "H";
           mkTok Display KDefault "i";
           mkTok Display KWhitespace " ";
           mkTok Syntax KOpen "*";
           mkTok Display KDefault "x";
           mkTok Syntax KClose "*" ].
Proof.
  intros Hseg.
  assert (E : trace seg (js "# Hi *x*") defaultOptions
              = trace None (js "# Hi *x*") defaultOptions).
  { destruct seg as [sg|]; [|done]. destruct Hseg as [Hok Hascii].
    apply scan_seg_agree. intros p Hp. simpl.
    do 7 (destruct p as [|p];
          [apply Hascii; [done | done | left; done]|]).
    destruct p as [|p]; [apply (segmenter_single sg _ Hok)|].
    simpl in Hp. lia. }
  unfold createUnifiedStream, createUnifiedStreamSync. rewrite E. reflexivity.
Qed.

Lemma end_to_end_scenario_witness :
  createUnifiedStream None (js "# Hi *x*") defaultOptions
  = Some [ mkTok Syntax KLine "# ";
           mkTok Display KDefault "H";
           mkTok Display KDefault "i";
           mkTok Display KWhitespace " ";
           mkTok Syntax KOpen "*";
           mkTok Display KDefault "x";
           mkTok Syntax KClose "*" ].
Proof. apply (end_to_end_scenario None). exact I. Defined.

(** ** The branches of a turn *)

Section Branches.

Variable seg : option Segmenter.
Variable src : jsstring.
Variable opts : Options.

(** What a turn that ends in step 1 has seen and done. *)
Lemma lineStep_inv st tok st' :
  lineStep src opts st = Some (tok, st') ->
  atLineStart src (i st) = true
  /\ exists m,
       matchLineSyntax src (i st) = Some m
       /\ ((isFence m = true
            /\ tok = lineToken (m_value m)
            /\ st' = {| stack := stack st; i := i st + m_len m;
                        inFence := negb (inFence st) |})
           \/ (isFence m = false /\ inFence st = false
               /\ tok = lineToken (if includeSpace opts then m_value m
                                   else replaceTrailingSpace (m_value m))
               /\ st' = advance st (length (value tok)))).
Proof.
  unfold lineStep.
  destruct (atLineStart src (i st)); [|discriminate].
  destruct (matchLineSyntax src (i st)) as [m|]; [|discriminate].
  split; [done|]. exists m. split; [done|].
  destruct (isFence m).
  - injection H as <- <-. left. done.
  - destruct (inFence st); [discriminate|]. simpl in H.
    injection H as <- <-. right. done.
Qed.

Lemma displayStep_inv st tok st' :
  displayStep seg src st = Some (tok, st') ->
  type tok = Display /\ st' = advance st (length (value tok))
  /\ (kind tok = KWhitespace \/ kind tok = KDefault).
Proof.
  unfold displayStep. destruct (isWS_at (src !! i st)) eqn:Hws.
  - intros [= <- <-]. simpl. repeat split; [|by left].
    f_equal. rewrite slice_drop, length_take, length_drop. unfold readWS.
    pose proof (run_length_le isWS (drop (i st) src)) as H.
    rewrite length_drop in H. lia.
  - destruct (head _) as [g|]; [|discriminate].
    intros [= <- <-]. simpl. repeat split. by right.
Qed.

Lemma htmlStep_inv st tok st' :
  htmlStep src st = Some (tok, st') ->
  type tok = Syntax /\ (kind tok = KOpen \/ kind tok = KClose)
  /\ inFence st' = inFence st /\ stack st' = stack st.
Proof.
  unfold htmlStep. destruct (_ && _); [|discriminate].
  destruct (indexOf GT (i st + 1) src); [|discriminate].
  intros [= <- <-]. simpl. repeat split.
  destruct (startsWith _ _ _); auto.
Qed.

Lemma markStep_inv st tok st' :
  markStep src st = Some (tok, st') ->
  type tok = Syntax /\ (kind tok = KOpen \/ kind tok = KClose)
  /\ inFence st' = inFence st.
Proof.
  unfold markStep, toggle.
  repeat match goal with
  | |- context [if ?b then _ else _] => destruct b
  end; intros [= <- <-]; simpl; auto.
Qed.

Lemma step_branch st tok st' :
  step seg src opts st = Some (tok, st') -> branch seg src opts st tok st'.
Proof.
  unfold step.
  destruct (lineStep src opts st) as [r|] eqn:H1;
    [intros [= ->]; by apply branch_line|].
  destruct (inFence st) eqn:Hf; [by apply branch_fenced|].
  destruct (htmlStep src st) as [r|] eqn:H2;
    [intros [= ->]; by apply branch_html|].
  destruct (markStep src st) as [r|] eqn:H3;
    [intros [= ->]; by apply branch_mark|].
  by apply branch_display.
Qed.

(** ** Fenced regions *)

Lemma marker_not_fence body (r : jsstring) :
  body <> [] -> forallb isMarkerUnit body = true ->
  prefixb FENCE (body ++ r) = false.
Proof.
  destruct body as [|c b]; [done|]. intros _ [Hc _]%andb_true_iff.
  unfold FENCE. cbn [prefixb app]. apply isMarkerUnit_cases in Hc.
  destruct (N.eqb_spec BACKTICK c) as [<-|]; [|done].
  unfold HASH, GT, DASH, PLUS, STAR, DOT, RPAREN, BACKTICK in *. lia.
Qed.

Lemma step_fence_flag st tok st' :
  step seg src opts st = Some (tok, st') ->
  if isFenceLine tok then inFence st' = negb (inFence st)
  else inFence st' = inFence st /\ (inFence st = true -> type tok = Display).
Proof.
  intros Hs. destruct (step_branch _ _ _ Hs) as [H | _ Hf H | _ Hf H | _ Hf _ H | _ Hf _ _ H].
  - apply lineStep_inv in H as (_ & m & Hm & H).
    apply matchLineSyntax_shape in Hm.
    destruct H as [(Hfm & -> & ->) | (Hfm & Hnf & -> & ->)].
    + destruct (line_shape_fence _ _ Hm Hfm) as [info E].
      unfold isFenceLine, startsWith, lineToken.
      cbn [type kind value inFence]. rewrite E, drop_0.
      replace (prefixb FENCE (FENCE ++ info)) with true; [done|].
      symmetry. apply prefixb_spec. eauto.
    + destruct (line_shape_marker _ _ Hm Hfm) as (body & E & Hne & Hb).
      unfold isFenceLine, startsWith, lineToken, advance.
      cbn [type kind value inFence]. rewrite drop_0, Hnf.
      destruct (includeSpace opts).
      * rewrite E, marker_not_fence by done. done.
      * rewrite E, replaceTrailingSpace_marker by done.
        rewrite <- (app_nil_r body), marker_not_fence by done. done.
  - apply displayStep_inv in H as (Ht & -> & _).
    unfold isFenceLine. rewrite Ht. done.
  - apply htmlStep_inv in H as (Ht & Hk & Hfl & _).
    unfold isFenceLine. rewrite Ht.
    destruct Hk as [-> | ->]; (split; [done|]); rewrite Hf; discriminate.
  - apply markStep_inv in H as (Ht & Hk & Hfl).
    unfold isFenceLine. rewrite Ht.
    destruct Hk as [-> | ->]; (split; [done|]); rewrite Hf; discriminate.
  - apply displayStep_inv in H as (Ht & -> & _).
    unfold isFenceLine. rewrite Ht. done.
Qed.

Lemma run_from_fence_sanctity st tr :
  run_from seg src opts st tr ->
  fence_sanctity (inFence st) (map snd tr) = true.
Proof.
  induction 1 as [st Hge | st tok st' rest Hlt Hs Hr IH]; [done|].
  simpl. apply step_fence_flag in Hs.
  destruct (isFenceLine tok).
  - by rewrite <- Hs.
  - destruct Hs as [E Hd]. rewrite <- E, IH, andb_true_r.
    rewrite E. destruct (inFence st); [|done]. by rewrite Hd.
Qed.

End Branches.

(** C3. Fence sanctity: for every input, every token emitted in a turn that
    starts with the fence flag up is a display token, unless it is a fence
    line; and, read from the token sequence alone, every token between a
    fence-open and the next fence-close line token is a display token. *)
Theorem fence_sanctity_holds (seg : option Segmenter) (src : jsstring)
    (opts : Options) :
  graphemes_ok seg ->
  exists tr,
    trace seg src opts = Some tr
    /\ createUnifiedStream seg src opts = Some (map snd tr)
    /\ Forall (fun e => inFence e.1 = true -> isFenceLine e.2 = false ->
                        type e.2 = Display) tr
    /\ fence_sanctity false (map snd tr) = true.
Proof.
  intros Hok. destruct (trace_total seg src opts Hok) as [tr Htr].
  exists tr. pose proof (trace_run _ _ _ _ Htr) as Hrun.
  repeat split; [done | | |].
  - unfold createUnifiedStream, createUnifiedStreamSync. by rewrite Htr.
  - apply (run_from_Forall seg src opts
             (fun s tok => inFence s = true -> isFenceLine tok = false ->
                           type tok = Display) initialState); [|exact Hrun].
    intros s tok s' _ Hs Hf Hnf.
    apply step_fence_flag in Hs. rewrite Hnf in Hs. by apply Hs.
  - apply (run_from_fence_sanctity _ _ _ _ _ Hrun).
Qed.

Lemma fence_sanctity_holds_witness :
  exists tr,
    trace None (js_lines ["a"; "```js"; "# *x* <b>"; "```"; "*y*"]%string) defaultOptions = Some tr
    /\ createUnifiedStream None (js_lines ["a"; "```js"; "# *x* <b>"; "```"; "*y*"]%string) defaultOptions = Some (map snd tr)
    /\ Forall (fun e => inFence e.1 = true -> isFenceLine e.2 = false ->
                        type e.2 = Display) tr
    /\ fence_sanctity false (map snd tr) = true.
Proof. apply (fence_sanctity_holds None); exact I. Defined.

(** ** HTML tags *)

Lemma indexOf_first c from (s : jsstring) k :
  from <= k -> s !! k = Some c ->
  (forall j, from <= j < k -> s !! j <> Some c) ->
  indexOf c from s = Some k.
Proof.
  intros Hle Hk Hmin. destruct (indexOf c from s) as [k'|] eqn:E.
  - apply indexOf_spec in E as (Hle' & Hk' & Hmin').
    destruct (Nat.lt_trichotomy k' k) as [Hlt | [-> | Hgt]]; [|done|].
    + exfalso. apply (Hmin k'); [lia | done].
    + exfalso. apply (Hmin' k); [lia | done].
  - exfalso. by apply (indexOf_None _ _ _ E k).
Qed.

Lemma line_shape_head s m :
  line_shape s m ->
  exists c r, s = c :: r /\ (isMarkerUnit c = true \/ c = BACKTICK).
Proof.
  destruct 1 as [n r Hn | body r Hne Hb | c r Hc | ds d r Hne Hd Hdd | info rest Hi Hr].
  - destruct n as [|n]; [lia|]. exists HASH. eexists. split; [reflexivity|by left].
  - destruct body as [|c b]; [done|]. exists c. eexists. split; [reflexivity|].
    left. simpl in Hb. apply andb_true_iff in Hb as [->%N.eqb_eq _]. done.
  - exists c. eexists. split; [reflexivity|]. left.
    destruct Hc as [-> | [-> | ->]]; done.
  - destruct ds as [|c b]; [done|]. exists c. eexists. split; [reflexivity|].
    left. simpl in Hd. apply andb_true_iff in Hd as [Hc _].
    unfold isMarkerUnit. rewrite Hc. by rewrite !orb_true_r.
  - exists BACKTICK. eexists. split; [reflexivity|by right].
Qed.

(** No marker begins with a unit that is neither a marker unit nor a
    backtick. *)
Lemma matchLineSyntax_None_head (src : jsstring) p c :
  src !! p = Some c -> isMarkerUnit c = false -> c <> BACKTICK ->
  matchLineSyntax src p = None.
Proof.
  intros Hc Hm Hb. destruct (matchLineSyntax src p) as [m|] eqn:E; [|done].
  apply matchLineSyntax_shape, line_shape_head in E as (c' & r & E & H).
  rewrite (drop_S _ _ _ Hc) in E. injection E as <- _.
  destruct H; congruence.
Qed.

Lemma lineStep_None_head src opts st c :
  src !! i st = Some c -> isMarkerUnit c = false -> c <> BACKTICK ->
  lineStep src opts st = None.
Proof.
  intros Hc Hm Hb. unfold lineStep.
  rewrite (matchLineSyntax_None_head _ _ _ Hc Hm Hb).
  by destruct (atLineStart src (i st)).
Qed.

(** The first grapheme at the cursor begins with the unit at the cursor; in
    the fallback it is that unit alone unless it leads a surrogate pair. *)
Lemma graphemes_head_at seg (src : jsstring) p c :
  graphemes_ok seg -> src !! p = Some c ->
  exists g, head (graphemes seg (drop p src)) = Some g
            /\ head g = Some c
            /\ (seg = None -> isLeadSurrogate c = false -> g = [c]).
Proof.
  intros Hok Hc. rewrite (drop_S _ _ _ Hc).
  destruct (graphemes_head seg (c :: drop (S p) src) Hok) as (g & r & Hg & Hne & E);
    [done|].
  exists g. split; [done|]. split.
  - destruct g as [|x g]; [done|]. by injection E as ->.
  - intros -> Hl. simpl in Hg. destruct (drop (S p) src) as [|d t].
    + by injection Hg as <-.
    + rewrite Hl in Hg. simpl in Hg. by injection Hg as <-.
Qed.

(** C7. HTML tags, outside fenced code and outside a code span, at a cursor
    that holds '<': when a '>' occurs later, the span from '<' through the
    first such '>' is one syntax token, of kind close when the span starts
    with "</" and of kind open otherwise, so that "<br/>" is an open token;
    when no '>' occurs later, the turn yields a default display token that
    begins with the '<' (the '<' alone in the fallback), and does not
    raise. *)
Theorem html_tag_handling (seg : option Segmenter) (src : jsstring)
    (opts : Options) (st : State) :
  graphemes_ok seg ->
  inFence st = false -> inInlineCode st = false -> src !! i st = Some LT ->
  (forall k,
     i st < k -> src !! k = Some GT ->
     (forall j, i st < j < k -> src !! j <> Some GT) ->
     step seg src opts st
     = Some ({| type := Syntax;
                kind := if startsWith [LT; SLASH] 0 (slice (i st) (k + 1) src)
                        then KClose else KOpen;
                value := slice (i st) (k + 1) src |},
             {| stack := stack st; i := k + 1; inFence := inFence st |}))
  /\ ((forall j, i st < j -> src !! j <> Some GT) ->
      exists g,
        step seg src opts st
        = Some ({| type := Display; kind := KDefault; value := g |},
                advance st (length g))
        /\ head g = Some LT
        /\ (seg = None -> g = [LT]))
  /\ createUnifiedStream seg (js "<br/>") opts = Some [mkTok Syntax KOpen "<br/>"].
Proof.
  intros Hok Hf Hcode Hc.
  assert (Hline : lineStep src opts st = None)
    by (by apply (lineStep_None_head _ _ _ LT)).
  split; [|split].
  - intros k Hk Hgt Hmin. unfold step. rewrite Hline, Hf.
    unfold htmlStep. rewrite Hcode, Hc. simpl.
    rewrite (indexOf_first GT (i st + 1) src k); [by rewrite Hf | lia | done |].
    intros j Hj. apply Hmin. lia.
  - intros Hno. unfold step. rewrite Hline, Hf.
    assert (Hhtml : htmlStep src st = None).
    { unfold htmlStep. rewrite Hcode, Hc. simpl.
      destruct (indexOf GT (i st + 1) src) as [k|] eqn:E; [|done].
      apply indexOf_spec in E as (Hle & Hk & _). exfalso.
      apply (Hno k); [lia | done]. }
    assert (Hmark : markStep src st = None).
    { unfold markStep. rewrite Hcode, Hc. done. }
    rewrite Hhtml, Hmark. unfold displayStep. rewrite Hc. simpl.
    destruct (graphemes_head_at seg src (i st) LT Hok Hc) as (g & Hg & Hh & Hfb).
    rewrite Hg. exists g. repeat split; [done|]. intros E. by apply Hfb.
  - reflexivity.
Qed.

Lemma html_tag_handling_witness :
  step None (js "</a>x") defaultOptions initialState
  = Some (mkTok Syntax KClose "</a>", {| stack := []; i := 4; inFence := false |})
  /\ exists g,
       step None (js "a<b") defaultOptions {| stack := []; i := 1; inFence := false |}
       = Some ({| type := Display; kind := KDefault; value := g |},
               {| stack := []; i := 1 + length g; inFence := false |})
       /\ head g = Some LT
       /\ g = [LT].
Proof.
  split.
  - destruct (html_tag_handling None (js "</a>x") defaultOptions initialState)
      as (H & _); [exact I | done | done | done |].
    apply (H 3); [simpl; lia | done |].
    intros j Hj. assert (j = 1 \/ j = 2) as [-> | ->] by (simpl in Hj; lia); done.
  - destruct (html_tag_handling None (js "a<b") defaultOptions
                {| stack := []; i := 1; inFence := false |})
      as (_ & H & _); [exact I | done | done | done |].
    destruct H as (g & Hs & Hh & Hg).
    + intros j Hj. simpl in Hj. destruct j as [|[|[|j]]]; [lia | lia | done | done].
    + exists g. repeat split; [exact Hs | exact Hh | by apply Hg].
Defined.

Example html_close_tag :
  createUnifiedStream None (js "<b>x</b>") defaultOptions
  = Some [mkTok Syntax KOpen "<b>"; mkTok Display KDefault "x";
          mkTok Syntax KClose "</b>"].
Proof. reflexivity. Qed.

Example html_unterminated :
  createUnifiedStream None (js "a<b") defaultOptions
  = Some [mkTok Display KDefault "a"; mkTok Display KDefault "<";
          mkTok Display KDefault "b"].
Proof. reflexivity. Qed.

(** ** Line tokens and the trailing space *)

(** Only step 1 yields line tokens. *)
Lemma step_line_inv seg src opts st tok st' :
  step seg src opts st = Some (tok, st') -> kind tok = KLine ->
  lineStep src opts st = Some (tok, st').
Proof.
  intros Hs Hk.
  destruct (step_branch _ _ _ _ _ _ Hs) as [H | _ _ H | _ _ H | _ _ _ H | _ _ _ _ H];
    [done | | | |].
  - apply displayStep_inv in H as (_ & _ & [E | E]); congruence.
  - apply htmlStep_inv in H as (_ & [E | E] & _); congruence.
  - apply markStep_inv in H as (_ & [E | E] & _); congruence.
  - apply displayStep_inv in H as (_ & _ & [E | E]); congruence.
Qed.

(** A turn at a space that follows a marker: a whitespace token. *)
Lemma step_at_space seg (src : jsstring) opts st r :
  inFence st = false -> drop (i st) src = SPACE :: r ->
  step seg src opts st
  = Some ({| type := Display; kind := KWhitespace;
             value := SPACE :: take (run_length isWS r) r |},
          advance st (S (run_length isWS r))).
Proof.
  intros Hf Hd.
  assert (Hc : src !! i st = Some SPACE).
  { rewrite <- (Nat.add_0_r (i st)), <- lookup_drop, Hd. done. }
  unfold step.
  rewrite (lineStep_None_head src opts st SPACE) by done. rewrite Hf.
  assert (Hhtml : htmlStep src st = None).
  { unfold htmlStep. rewrite Hc. by rewrite andb_false_r. }
  assert (Hmark : markStep src st = None).
  { unfold markStep. rewrite Hc. by destruct (negb (inInlineCode st)). }
  rewrite Hhtml, Hmark. unfold displayStep, readWS. rewrite Hc, slice_drop, Hd.
  done.
Qed.

(** C8 fails inside a fence: after a fence line, with the option
    false, the heading marker of the second line matches at a start of line,
    yet the turn emits the display token of one hash and moves the cursor by
    one. *)
Lemma trailing_space_claim_fails :
  ~ trailing_space_claim None (js_lines ["```"; "## x"]%string)
      {| includeTrailingSpaceInLineSyntax := Some false |}.
Proof.
  intros H.
  specialize (H _ {| stack := []; i := 4; inFence := true |}
                (mkTok Display KDefault "#") (headingMatch 2) eq_refl).
  destruct H as (marker & _ & H & _);
    [|reflexivity|reflexivity|reflexivity|reflexivity|discriminate].
  vm_compute. apply list_elem_of_further. apply list_elem_of_here.
Qed.

(** C8, amended.  At a start of line where a marker matches: a fence line is
    emitted whole, whatever the option and the fence flag.  A marker other
    than a fence, met with the fence flag down and
    [includeTrailingSpaceInLineSyntax] false, is emitted as a line token
    without its trailing space, the cursor moves by that shorter length, and
    the next turn emits a whitespace display token that begins with the space
    left behind.  Met with the fence flag up, it gives no line token,
    whatever the option: the turn is one of the fenced display branch. *)
Theorem trailing_space_option (seg : option Segmenter) (src : jsstring)
    (opts : Options) (st : State) (m : LineMatch) :
  atLineStart src (i st) = true ->
  matchLineSyntax src (i st) = Some m ->
  (isFence m = true ->
   step seg src opts st
   = Some (lineToken (m_value m),
           {| stack := stack st; i := i st + m_len m;
              inFence := negb (inFence st) |}))
  /\ (isFence m = false -> inFence st = false -> includeSpace opts = false ->
      exists marker ws,
        m_value m = marker ++ [SPACE]
        /\ m_len m = length marker + 1
        /\ marker <> []
        /\ step seg src opts st
           = Some (lineToken marker, advance st (length marker))
        /\ src !! (i st + length marker) = Some SPACE
        /\ step seg src opts (advance st (length marker))
           = Some ({| type := Display; kind := KWhitespace; value := SPACE :: ws |},
                   advance (advance st (length marker)) (S (length ws)))
        /\ forallb isWS ws = true)
  /\ (isFence m = false -> inFence st = true ->
      step seg src opts st = displayStep seg src st
      /\ forall tok st',
           step seg src opts st = Some (tok, st') ->
           type tok = Display /\ kind tok <> KLine
           /\ st' = advance st (length (value tok))).
Proof.
  intros Hsol Hm. split; [|split].
  - intros Hfm. unfold step, lineStep. by rewrite Hsol, Hm, Hfm.
  - intros Hfm Hf Hopt.
    pose proof (matchLineSyntax_shape _ _ _ Hm) as Hshape.
    destruct (line_shape_prefix _ _ Hshape) as (r & Er & El).
    destruct (line_shape_marker _ _ Hshape Hfm) as (marker & Eb & Hne & Hb).
    set (ws := take (run_length isWS r) r).
    exists marker, ws.
    assert (Hd : drop (i st + length marker) src = SPACE :: r).
    { rewrite <- drop_drop, Er, Eb, <- app_assoc. by rewrite drop_app_length. }
    assert (Hlen : length ws = run_length isWS r).
    { unfold ws. rewrite length_take. pose proof (run_length_le isWS r). lia. }
    repeat split.
    + done.
    + rewrite El, Eb, length_app. done.
    + done.
    + unfold step, lineStep. rewrite Hsol, Hm, Hfm, Hf, Hopt. simpl.
      by rewrite Eb, replaceTrailingSpace_marker.
    + rewrite <- (Nat.add_0_r (i st + length marker)), <- lookup_drop, Hd. done.
    + rewrite Hlen. by apply step_at_space.
    + apply run_length_take.
  - intros Hfm Hf.
    assert (E : step seg src opts st = displayStep seg src st).
    { unfold step, lineStep. by rewrite Hsol, Hm, Hfm, Hf. }
    split; [done|]. intros tok st' Hs. rewrite E in Hs.
    apply displayStep_inv in Hs as (Ht & -> & Hk).
    repeat split; [done|]. destruct Hk as [Hk | Hk]; rewrite Hk; discriminate.
Qed.

Lemma trailing_space_option_witness :
  (exists marker ws,
     js "1. " = marker ++ [SPACE]
     /\ 3 = length marker + 1
     /\ marker <> []
     /\ step None (js "1.  item") {| includeTrailingSpaceInLineSyntax := Some false |}
          initialState
        = Some (lineToken marker, advance initialState (length marker))
     /\ js "1.  item" !! (0 + length marker) = Some SPACE
     /\ step None (js "1.  item") {| includeTrailingSpaceInLineSyntax := Some false |}
          (advance initialState (length marker))
        = Some ({| type := Display; kind := KWhitespace; value := SPACE :: ws |},
                advance (advance initialState (length marker)) (S (length ws)))
     /\ forallb isWS ws = true)
  /\ step None (js "``` x") {| includeTrailingSpaceInLineSyntax := Some false |}
       initialState
     = Some (lineToken (js "``` x"),
             {| stack := []; i := 5; inFence := true |})
  /\ step None (js_lines ["```"; "## x"]%string)
       {| includeTrailingSpaceInLineSyntax := Some false |}
       {| stack := []; i := 4; inFence := true |}
     = displayStep None (js_lines ["```"; "## x"]%string)
         {| stack := []; i := 4; inFence := true |}.
Proof.
  split; [|split].
  - apply (trailing_space_option None (js "1.  item")
             {| includeTrailingSpaceInLineSyntax := Some false |} initialState
             {| m_value := js "1. "; m_len := 3; isFence := false |});
      reflexivity.
  - apply (trailing_space_option None (js "``` x")
             {| includeTrailingSpaceInLineSyntax := Some false |} initialState
             {| m_value := js "``` x"; m_len := 5; isFence := true |});
      reflexivity.
  - destruct (trailing_space_option None (js_lines ["```"; "## x"]%string)
                {| includeTrailingSpaceInLineSyntax := Some false |}
                {| stack := []; i := 4; inFence := true |} (headingMatch 2))
      as (_ & _ & H); [reflexivity | reflexivity |].
    exact (proj1 (H eq_refl eq_refl)).
Defined.

Example trailing_space_in_fence :
  createUnifiedStream None (js_lines ["```"; "## x"]%string)
    {| includeTrailingSpaceInLineSyntax := Some false |}
  = Some [{| type := Syntax; kind := KLine; value := js "```" ++ [LF] |};
          mkTok Display KDefault "#"; mkTok Display KDefault "#";
          mkTok Display KWhitespace " "; mkTok Display KDefault "x"].
Proof. reflexivity. Qed.

Example trailing_space_stripped :
  createUnifiedStream None (js "## Hi") {| includeTrailingSpaceInLineSyntax := Some false |}
  = Some [mkTok Syntax KLine "##"; mkTok Display KWhitespace " ";
          mkTok Display KDefault "H"; mkTok Display KDefault "i"].
Proof. reflexivity. Qed.

(** ** Code spans *)

(** Every entry of a run is a turn of the loop. *)
Lemma run_from_steps seg src opts st0 tr st tok :
  run_from seg src opts st0 tr -> (st, tok) ∈ tr ->
  i st < length src /\ exists st', step seg src opts st = Some (tok, st').
Proof.
  intros Hrun Hin.
  pose proof (run_from_Forall seg src opts
                (fun s t => i s < length src
                            /\ exists s', step seg src opts s = Some (t, s'))
                st0 tr) as H.
  rewrite Forall_forall in H. apply (H ltac:(eauto) Hrun _ Hin).
Qed.

(** C10 fails inside a fence: after a backtick that opens a code
    span and a fence line, the heading marker of the third line is display
    text. *)
Lemma code_span_line_claim_fails :
  ~ code_span_line_claim None (js_lines ["`"; "```"; "# x"]%string) defaultOptions.
Proof.
  intros H.
  specialize (H _ {| stack := [CODE]; i := 6; inFence := true |}
                (mkTok Display KDefault "#") (headingMatch 1) eq_refl).
  destruct H as [H _]; [|reflexivity|reflexivity|reflexivity|discriminate].
  vm_compute. do 3 apply list_elem_of_further. apply list_elem_of_here.
Qed.

(** C10, amended.  With the code-span mark on top of the stack: at a start of
    line, a fence line is emitted as a line token and turns the fence flag
    over, and a heading, quote or list marker is emitted as a line token when
    the fence flag is down, and goes through the display branch when it is
    up; the stack is left as it is.  Elsewhere outside a fence, a backtick
    closes the span and any other unit, '<', '*' and '_' among them, goes
    through the display branch. *)
Theorem code_span_keeps_line_syntax (seg : option Segmenter) (src : jsstring)
    (opts : Options) (st : State) :
  inInlineCode st = true ->
  (forall m,
     atLineStart src (i st) = true -> matchLineSyntax src (i st) = Some m ->
     (isFence m = true ->
      step seg src opts st
      = Some (lineToken (m_value m),
              {| stack := stack st; i := i st + m_len m;
                 inFence := negb (inFence st) |}))
     /\ (isFence m = false -> inFence st = false ->
         step seg src opts st
         = Some (lineToken (if includeSpace opts then m_value m
                            else replaceTrailingSpace (m_value m)),
                 {| stack := stack st;
                    i := i st + length (if includeSpace opts then m_value m
                                        else replaceTrailingSpace (m_value m));
                    inFence := false |}))
     /\ (isFence m = false -> inFence st = true ->
         step seg src opts st = displayStep seg src st))
  /\ (inFence st = false -> lineStep src opts st = None ->
      (src !! i st = Some BACKTICK ->
       step seg src opts st
       = Some ({| type := Syntax; kind := KClose; value := [BACKTICK] |},
               {| stack := pop (stack st); i := i st + 1; inFence := false |}))
      /\ (src !! i st <> Some BACKTICK ->
          step seg src opts st = displayStep seg src st)).
Proof.
  intros Hcode. split.
  - intros m Hsol Hm. split; [|split].
    + intros Hfm. unfold step, lineStep. by rewrite Hsol, Hm, Hfm.
    + intros Hfm Hf. unfold step, lineStep, advance.
      by rewrite Hsol, Hm, Hfm, Hf.
    + intros Hfm Hf. unfold step, lineStep.
      by rewrite Hsol, Hm, Hfm, Hf.
  - intros Hf Hline. unfold step. rewrite Hline, Hf.
    assert (Hhtml : htmlStep src st = None)
      by (unfold htmlStep; by rewrite Hcode).
    rewrite Hhtml. unfold markStep. rewrite Hcode. simpl. split.
    + intros ->. simpl. by rewrite Hf.
    + intros Hb. destruct (is_ch (src !! i st) BACKTICK) eqn:E; [|done].
      by apply is_ch_Some in E.
Qed.

Lemma code_span_keeps_line_syntax_witness :
  step None (js_lines ["`a"; "# x"]%string) defaultOptions
    {| stack := [CODE]; i := 3; inFence := false |}
  = Some (mkTok Syntax KLine "# ", {| stack := [CODE]; i := 5; inFence := false |})
  /\ step None (js_lines ["`a"; "```"]%string) defaultOptions
       {| stack := [CODE]; i := 3; inFence := false |}
     = Some (mkTok Syntax KLine "```", {| stack := [CODE]; i := 6; inFence := true |})
  /\ step None (js "`<b>`") defaultOptions {| stack := [CODE]; i := 1; inFence := false |}
     = displayStep None (js "`<b>`") {| stack := [CODE]; i := 1; inFence := false |}
  /\ step None (js "`<b>`") defaultOptions {| stack := [CODE]; i := 4; inFence := false |}
     = Some (mkTok Syntax KClose "`", {| stack := []; i := 5; inFence := false |}).
Proof.
  split; [|split; [|split]].
  - destruct (code_span_keeps_line_syntax None (js_lines ["`a"; "# x"]%string)
                defaultOptions {| stack := [CODE]; i := 3; inFence := false |})
      as (H & _); [done|].
    destruct (H (headingMatch 1)) as (_ & Hm & _); [done | done |].
    by apply Hm.
  - destruct (code_span_keeps_line_syntax None (js_lines ["`a"; "```"]%string)
                defaultOptions {| stack := [CODE]; i := 3; inFence := false |})
      as (H & _); [done|].
    destruct (H {| m_value := FENCE; m_len := 3; isFence := true |}) as (Hm & _);
      [done | done |].
    by apply Hm.
  - destruct (code_span_keeps_line_syntax None (js "`<b>`") defaultOptions
                {| stack := [CODE]; i := 1; inFence := false |})
      as (_ & H); [done|].
    destruct H as (_ & Hd); [done | done |]. by apply Hd.
  - destruct (code_span_keeps_line_syntax None (js "`<b>`") defaultOptions
                {| stack := [CODE]; i := 4; inFence := false |})
      as (_ & H); [done|].
    destruct H as (Hb & _); [done | done |]. by apply Hb.
Defined.

Example code_span_heading :
  createUnifiedStream None (js_lines ["`a"; "# x"]%string) defaultOptions
  = Some [mkTok Syntax KOpen "`"; mkTok Display KDefault "a";
          {| type := Display; kind := KWhitespace; value := [LF] |};
          mkTok Syntax KLine "# "; mkTok Display KDefault "x"].
Proof. reflexivity. Qed.

Example code_span_no_html :
  createUnifiedStream None (js "`<b>*`") defaultOptions
  = Some [mkTok Syntax KOpen "`"; mkTok Display KDefault "<";
          mkTok Display KDefault "b"; mkTok Display KDefault ">";
          mkTok Display KDefault "*"; mkTok Syntax KClose "`"].
Proof. reflexivity. Qed.

(** ** Headings *)






(** Before its last unit, a match holds no newline. *)
Lemma line_shape_no_newline s m j :
  line_shape s m -> j + 1 < m_len m -> s !! j <> Some LF.
Proof.
  intros Hs Hj.
  destruct (isFence m) eqn:Hf.
  - inversion Hs as [| | | | info rest Hi Hr E]; subst; try discriminate.
    simpl in Hj. rewrite length_app in Hj.
    assert (length (take 1 rest) <= 1) by (rewrite length_take; lia).
    assert (Hlt : j < length (FENCE ++ info))
      by (rewrite length_app; simpl; lia).
    rewrite app_assoc, lookup_app_l by done.
    intros Hin. apply list_elem_of_lookup_2 in Hin.
    apply elem_of_app in Hin as [Hin | Hin].
    + unfold FENCE in Hin.
      repeat (apply elem_of_cons in Hin as [Hin | Hin]; [discriminate|]).
      by apply elem_of_nil in Hin.
    + rewrite forallb_forall in Hi. apply list_elem_of_In, Hi in Hin. done.
  - destruct (line_shape_prefix _ _ Hs) as (r & Er & El).
    destruct (line_shape_marker _ _ Hs Hf) as (body & Eb & Hne & Hb).
    rewrite El, Eb, length_app in Hj. simpl in Hj.
    rewrite Er, Eb, <- app_assoc, lookup_app_l by lia.
    intros Hin. apply list_elem_of_lookup_2, list_elem_of_In in Hin.
    rewrite forallb_forall in Hb. apply Hb in Hin. done.
Qed.






Example heading_without_space :
  createUnifiedStream None (js "#Hello") defaultOptions
  = Some [mkTok Display KDefault "#"; mkTok Display KDefault "H";
          mkTok Display KDefault "e"; mkTok Display KDefault "l";
          mkTok Display KDefault "l"; mkTok Display KDefault "o"].
Proof. reflexivity. Qed.

(** ** White space *)

(** C5 fails after a line marker: the space that follows the hash belongs to
    the line token. *)
Lemma clumping_claim_fails :
  ~ clumping_claim None (js "# x") defaultOptions.
Proof.
  intros H. destruct (H _ 1 2 eq_refl) as (st & Hin & Hi).
  - split; [simpl; lia|]. split; [|split; [by right | done]].
    intros k Hk. by replace k with 1 by lia.
  - vm_compute in Hin.
    repeat (apply elem_of_cons in Hin as [Hin | Hin];
            [injection Hin as -> _; discriminate|]).
    by apply elem_of_nil in Hin.
Qed.

Lemma isWS_cases c :
  isWS c = true -> c = SPACE \/ c = TAB \/ c = LF \/ c = CR.
Proof. unfold isWS. rewrite !orb_true_iff, !N.eqb_eq. tauto. Qed.

(** A turn at a white-space unit, in a fence or not: the whole run from the
    cursor on, as one whitespace token. *)
Lemma step_at_ws seg (src : jsstring) opts st :
  isWS_at (src !! i st) = true ->
  step seg src opts st
  = Some (wsToken (slice (i st) (i st + readWS src (i st)) src),
          advance st (readWS src (i st))).
Proof.
  intros Hws. destruct (src !! i st) as [c|] eqn:Hc; [|done]. simpl in Hws.
  assert (Hcases := isWS_cases _ Hws).
  assert (Hline : lineStep src opts st = None).
  { apply (lineStep_None_head _ _ _ c Hc);
      destruct Hcases as [-> | [-> | [-> | ->]]]; done. }
  assert (Hhtml : htmlStep src st = None).
  { unfold htmlStep. rewrite Hc.
    replace (is_ch (Some c) LT) with false
      by (destruct Hcases as [-> | [-> | [-> | ->]]]; done).
    by rewrite andb_false_r. }
  assert (Hmark : markStep src st = None).
  { unfold markStep. rewrite Hc.
    replace (is_ch (Some c) STAR) with false
      by (destruct Hcases as [-> | [-> | [-> | ->]]]; done).
    replace (is_ch (Some c) UNDERSCORE) with false
      by (destruct Hcases as [-> | [-> | [-> | ->]]]; done).
    replace (is_ch (Some c) BACKTICK) with false
      by (destruct Hcases as [-> | [-> | [-> | ->]]]; done).
    by destruct (negb (inInlineCode st)). }
  assert (Hd : displayStep seg src st
               = Some (wsToken (slice (i st) (i st + readWS src (i st)) src),
                       advance st (readWS src (i st)))).
  { unfold displayStep. rewrite Hc. simpl. by rewrite Hws. }
  unfold step. rewrite Hline, Hhtml, Hmark, Hd. by destruct (inFence st).
Qed.

Lemma run_length_exact p (s : jsstring) n :
  (forall k, k < n -> exists c, s !! k = Some c /\ p c = true) ->
  match s !! n with Some c => p c = false | None => True end ->
  run_length p s = n.
Proof.
  revert s. induction n as [|n IH]; intros s Hin Hout.
  - destruct s as [|c s]; [done|]. simpl in *. by rewrite Hout.
  - destruct (Hin 0) as (c & Hc & Hp); [lia|].
    destruct s as [|c' s]; [done|]. injection Hc as ->. simpl. rewrite Hp.
    f_equal. apply IH; [|done].
    intros k Hk. apply (Hin (S k)). lia.
Qed.

Lemma ws_run_readWS src a b : ws_run src a b -> readWS src a = b - a.
Proof.
  intros (Hab & Hin & _ & Hout). unfold readWS. apply run_length_exact.
  - intros k Hk. rewrite lookup_drop.
    specialize (Hin (a + k) ltac:(lia)).
    destruct (src !! (a + k)) as [c|]; [eauto | done].
  - rewrite lookup_drop. replace (a + (b - a)) with b by lia.
    by destruct (src !! b).
Qed.

Lemma displayStep_ws seg src st tok st' :
  displayStep seg src st = Some (tok, st') -> kind tok = KWhitespace ->
  isWS_at (src !! i st) = true.
Proof.
  unfold displayStep. destruct (isWS_at (src !! i st)); [done|].
  destruct (head _); [|discriminate]. intros [= <- _]. discriminate.
Qed.

(** C5, amended.  A turn that starts at a white-space unit emits one
    whitespace token that holds all the white space from the cursor up to
    the next unit that is not white space, or the end of the input; so a
    maximal run at whose first unit a turn starts is one whitespace token
    that covers the whole run.  Whitespace tokens are emitted nowhere else. *)
Theorem whitespace_clumping (seg : option Segmenter) (src : jsstring)
    (opts : Options) (tr : list (State * Token)) :
  trace seg src opts = Some tr ->
  (forall st tok,
     (st, tok) ∈ tr -> isWS_at (src !! i st) = true ->
     tok = wsToken (slice (i st) (i st + readWS src (i st)) src)
     /\ forallb isWS (value tok) = true
     /\ isWS_at (src !! (i st + length (value tok))) = false)
  /\ (forall a b st tok,
        ws_run src a b -> (st, tok) ∈ tr -> i st = a ->
        tok = wsToken (slice a b src))
  /\ (forall st tok,
        (st, tok) ∈ tr -> kind tok = KWhitespace ->
        isWS_at (src !! i st) = true).
Proof.
  intros Htr. apply trace_run in Htr.
  assert (Hfirst : forall st tok,
            (st, tok) ∈ tr -> isWS_at (src !! i st) = true ->
            tok = wsToken (slice (i st) (i st + readWS src (i st)) src)).
  { intros st tok Hin Hws.
    destruct (run_from_steps _ _ _ _ _ _ _ Htr Hin) as (_ & st' & Hs).
    rewrite step_at_ws in Hs by done. by injection Hs as <- _. }
  split; [|split].
  - intros st tok Hin Hws. rewrite (Hfirst _ _ Hin Hws). split; [done|].
    simpl. rewrite slice_drop. unfold readWS. split.
    + apply run_length_take.
    + rewrite length_take.
      pose proof (run_length_le isWS (drop (i st) src)) as Hle.
      rewrite Nat.min_l by done.
      pose proof (run_length_stop isWS (drop (i st) src)) as Hstop.
      rewrite lookup_drop in Hstop.
      by destruct (src !! (i st + run_length isWS (drop (i st) src))).
  - intros a b st tok Hrun Hin Hi.
    assert (Hws : isWS_at (src !! i st) = true).
    { destruct Hrun as (Hab & Hall & _). rewrite Hi. apply Hall. lia. }
    rewrite (Hfirst _ _ Hin Hws), Hi, (ws_run_readWS _ _ _ Hrun).
    destruct Hrun as (Hab & _). by replace (a + (b - a)) with b by lia.
  - intros st tok Hin Hk.
    destruct (run_from_steps _ _ _ _ _ _ _ Htr Hin) as (_ & st' & Hs).
    destruct (step_branch _ _ _ _ _ _ Hs) as [H | _ _ H | _ _ H | _ _ _ H | _ _ _ _ H].
    + apply lineStep_inv in H as (_ & m & _ & [(_ & -> & _) | (_ & _ & -> & _)]);
        discriminate.
    + by apply displayStep_ws in H.
    + apply htmlStep_inv in H as (_ & [E | E] & _); congruence.
    + apply markStep_inv in H as (_ & [E | E] & _); congruence.
    + by apply displayStep_ws in H.
Qed.

Lemma whitespace_clumping_witness :
  ws_run (js "a  b") 1 3
  /\ mkTok Display KWhitespace "  " = wsToken (slice 1 3 (js "a  b")).
Proof.
  assert (Hrun : ws_run (js "a  b") 1 3).
  { split; [simpl; lia|]. split; [|split; [by right | done]].
    intros k Hk. assert (k = 1 \/ k = 2) as [-> | ->] by lia; done. }
  split; [exact Hrun|].
  destruct (whitespace_clumping None (js "a  b") defaultOptions _ eq_refl)
    as (_ & H & _).
  apply (H 1 3 {| stack := []; i := 1; inFence := false |}); [exact Hrun | | done].
  vm_compute. apply list_elem_of_further, list_elem_of_here.
Defined.

Example whitespace_run_one_token :
  createUnifiedStream None (js_lines ["a  "; ""; " b"]%string) defaultOptions
  = Some [mkTok Display KDefault "a";
          {| type := Display; kind := KWhitespace;
             value := [SPACE; SPACE; LF; LF; SPACE] |};
          mkTok Display KDefault "b"].
Proof. reflexivity. Qed.

(** ** toClosingTag *)

(** A tag that is already a closing tag gives the empty string: the test of
    line 47 rejects it together with the self-closing tags. *)
Lemma toClosingTag_closing s :
  startsWith [LT; SLASH] 0 (trim s) = true -> toClosingTag s = [].
Proof.
  intros H. unfold toClosingTag. rewrite H. simpl.
  by destruct (negb (startsWith [LT] 0 (trim s)) || negb (endsWith [GT] (trim s))).
Qed.

Lemma toClosingTag_self_closing s :
  endsWith [SLASH; GT] (trim s) = true -> toClosingTag s = [].
Proof.
  intros H. unfold toClosingTag. rewrite H, orb_true_r.
  by destruct (negb (startsWith [LT] 0 (trim s)) || negb (endsWith [GT] (trim s))).
Qed.

Lemma isTagNameChar_not_space c : isTagNameChar c = true -> isJSSpace c = false.
Proof.
  unfold isTagNameChar, isJSSpace, COLON, DASH.
  rewrite !orb_true_iff, !andb_true_iff, !N.leb_le, !N.eqb_eq.
  intros H. rewrite !orb_false_iff, !andb_false_iff, !N.leb_gt, !N.eqb_neq. lia.
Qed.

Lemma run_length_app_stop p (a b : jsstring) :
  forallb p a = true ->
  match b with c :: _ => p c = false | [] => True end ->
  run_length p (a ++ b) = length a /\ take (length a) (a ++ b) = a
  /\ drop (length a) (a ++ b) = b.
Proof.
  intros Ha Hb. rewrite run_length_app by done.
  rewrite take_app_length, drop_app_length.
  destruct b as [|c b]; simpl; [|rewrite Hb]; auto with lia.
Qed.

(** A well-formed opening tag, not self-closing: ['<'], white space if any,
    a name, and the rest up to the ['>'] that ends the trimmed string. *)
Lemma toClosingTag_opening s sp name c rest :
  trim s = [LT] ++ sp ++ name ++ c :: rest ->
  forallb isJSSpace sp = true ->
  name <> [] -> forallb isTagNameChar name = true -> isTagNameChar c = false ->
  endsWith [GT] (trim s) = true -> endsWith [SLASH; GT] (trim s) = false ->
  toClosingTag s = [LT; SLASH] ++ name ++ [GT].
Proof.
  intros E Hsp Hne Hname Hc Hgt Hself. unfold toClosingTag.
  rewrite Hgt, Hself, E. set (x := sp ++ name ++ c :: rest).
  assert (Hx : match x with d :: _ => d <> SLASH | [] => False end).
  { unfold x. destruct sp as [|d sp]; simpl.
    - destruct name as [|d name]; [done|]. simpl in *.
      apply andb_true_iff in Hname as [Hd _]. by intros ->.
    - simpl in Hsp. apply andb_true_iff in Hsp as [Hd _]. by intros ->. }
  assert (F1 : startsWith [LT] 0 ([LT] ++ x) = true) by reflexivity.
  assert (F2 : startsWith [LT; SLASH] 0 ([LT] ++ x) = false).
  { destruct x as [|d t]; [done|]. unfold startsWith. cbn [drop app prefixb].
    destruct (N.eqb_spec SLASH d) as [<-|]; [done|]. by rewrite andb_false_r. }
  rewrite F1, F2. cbn [negb orb app].
  unfold execTagName. replace (N.eqb LT LT) with true by done.
  destruct (run_length_app_stop isJSSpace sp (name ++ c :: rest) Hsp) as (E1 & _ & E3).
  { destruct name as [|d name]; [done|]. simpl in *.
    apply andb_true_iff in Hname as [Hd _]. by apply isTagNameChar_not_space. }
  unfold x. rewrite E1, E3.
  destruct (run_length_app_stop isTagNameChar name (c :: rest) Hname Hc)
    as (E4 & E5 & _).
  rewrite E4, E5. by destruct name.
Qed.

(** C2, at the input where the code departs from it: a string that is
    already a closing tag is not returned unchanged, the result is empty.
    The two other cases hold. *)
Theorem toClosingTag_examples :
  toClosingTag (js "</div>") = []
  /\ toClosingTag (js "</div>") <> js "</div>"
  /\ toClosingTag (js "<div class='x'>") = js "</div>"
  /\ toClosingTag (js "<ul>") = js "</ul>"
  /\ toClosingTag (js "<br/>") = [].
Proof. repeat split; done. Qed.

(** ** Further scenarios of the specification, evaluated *)

Example mark_toggle_parity :
  createUnifiedStream None (js "**bold**") defaultOptions
  = Some [mkTok Syntax KOpen "**"; mkTok Display KDefault "b";
          mkTok Display KDefault "o"; mkTok Display KDefault "l";
          mkTok Display KDefault "d"; mkTok Syntax KClose "**"].
Proof. reflexivity. Qed.

Example ordered_list_recognition :
  createUnifiedStream None (js "1. item") defaultOptions
  = Some [mkTok Syntax KLine "1. "; mkTok Display KDefault "i";
          mkTok Display KDefault "t"; mkTok Display KDefault "e";
          mkTok Display KDefault "m"].
Proof. reflexivity. Qed.

Example fence_region_is_display :
  createUnifiedStream None (js_lines ["```js"; "*a* <b>"; "```"]%string) defaultOptions
  = Some [{| type := Syntax; kind := KLine; value := js "```js" ++ [LF] |};
          mkTok Display KDefault "*"; mkTok Display KDefault "a";
          mkTok Display KDefault "*"; mkTok Display KWhitespace " ";
          mkTok Display KDefault "<"; mkTok Display KDefault "b";
          mkTok Display KDefault ">";
          {| type := Display; kind := KWhitespace; value := [LF] |};
          mkTok Syntax KLine "```"].
Proof. reflexivity. Qed.

(** A surrogate pair is one grapheme in the fallback. *)
Example surrogate_pair_one_token :
  createUnifiedStream None [0xD83D; 0xDE00; 97]%N defaultOptions
  = Some [{| type := Display; kind := KDefault; value := [0xD83D; 0xDE00]%N |};
          mkTok Display KDefault "a"].
Proof. reflexivity. Qed.

(** * Further properties of the code *)

(** ** readWS *)

(** X1. [readWS(src, i)] is the length of the run of white space that starts
    at [i]: every unit of the run is white space, the unit after it, if any,
    is not, and the result is 0 exactly when [src[i]] is not white space,
    also when [i] is past the end. *)
Theorem readWS_maximal_run (src : jsstring) (i : nat) :
  (forall k, i <= k < i + readWS src i -> isWS_at (src !! k) = true)
  /\ isWS_at (src !! (i + readWS src i)) = false
  /\ (readWS src i = 0 <-> isWS_at (src !! i) = false)
  /\ (length src <= i -> readWS src i = 0).
Proof.
  unfold readWS. set (s := drop i src).
  assert (Hin : forall k, k < run_length isWS s -> isWS_at (s !! k) = true).
  { intros k Hk. pose proof (run_length_take isWS s) as Ht.
    rewrite forallb_forall in Ht.
    pose proof (run_length_le isWS s) as Hle.
    destruct (s !! k) as [c|] eqn:Hc.
    - simpl. apply Ht, list_elem_of_In, (list_elem_of_lookup_2 _ k).
      by rewrite lookup_take_lt.
    - apply lookup_ge_None in Hc. lia. }
  assert (Hout : isWS_at (s !! run_length isWS s) = false).
  { pose proof (run_length_stop isWS s) as Hs.
    by destruct (s !! run_length isWS s). }
  split; [|split; [|split]].
  - intros k Hk. specialize (Hin (k - i) ltac:(lia)).
    unfold s in Hin. rewrite lookup_drop in Hin.
    by replace (i + (k - i)) with k in Hin by lia.
  - unfold s in Hout. by rewrite lookup_drop in Hout.
  - split.
    + intros E. rewrite E in Hout. unfold s in Hout.
      by rewrite lookup_drop, Nat.add_0_r in Hout.
    + intros Hn. destruct (run_length isWS s) as [|n] eqn:E; [done|].
      specialize (Hin 0 ltac:(lia)). unfold s in Hin.
      rewrite lookup_drop, Nat.add_0_r in Hin. congruence.
  - intros Hge. unfold s. by rewrite drop_ge.
Qed.

(** ** The fallback of graphemes *)

(** One code unit, or a lead and a trail surrogate. *)
Lemma codepoints_shapes (s : jsstring) :
  Forall code_point (codepoints s).
Proof.
  enough (H : Forall code_point (codepoints s)
              /\ forall c, Forall code_point (codepoints (c :: s)))
    by apply H.
  induction s as [|d s [IH1 IH2]].
  - split; [constructor|]. intros c. constructor; [left; eauto | constructor].
  - split; [apply IH2|]. intros c.
    change (codepoints (c :: d :: s))
      with (if isLeadSurrogate c && isTrailSurrogate d
            then [c; d] :: codepoints s else [c] :: codepoints (d :: s)).
    destruct (isLeadSurrogate c && isTrailSurrogate d) eqn:E.
    + apply andb_true_iff in E as [E1 E2].
      constructor; [right; eauto 6 | exact IH1].
    + constructor; [left; eauto | apply IH2].
Qed.

(** X2. The fallback of [graphemes] cuts a string into pieces that give the
    string back when joined; each piece is one code unit, or two units that
    are a lead and a trail surrogate. *)
Theorem codepoints_pieces (s : jsstring) :
  concat (codepoints s) = s /\ Forall code_point (codepoints s).
Proof. split; [apply codepoints_partition | apply codepoints_shapes]. Qed.

(** ** toClosingTag, in general *)

Lemma trimStart_spaces a s :
  forallb isJSSpace a = true -> trimStart (a ++ s) = trimStart s.
Proof.
  intros Ha. unfold trimStart. rewrite run_length_app by done.
  by rewrite <- drop_drop, drop_app_length.
Qed.

Lemma trimStart_all_spaces a :
  forallb isJSSpace a = true -> trimStart a = [].
Proof.
  intros Ha. rewrite <- (app_nil_r a), trimStart_spaces by done. done.
Qed.

Lemma trimStart_id s :
  match s with c :: _ => isJSSpace c = false | [] => True end ->
  trimStart s = s.
Proof. destruct s as [|c s]; [done|]. intros H. unfold trimStart. simpl. by rewrite H. Qed.

(** What is left of a string after [trimStart] does not begin with white
    space. *)
Lemma trimStart_head s :
  match trimStart s with c :: _ => isJSSpace c = false | [] => True end.
Proof.
  unfold trimStart. pose proof (run_length_stop isJSSpace s) as H.
  destruct (drop (run_length isJSSpace s) s) as [|c t] eqn:E; [done|].
  assert (Hc : s !! (run_length isJSSpace s + 0) = Some c)
    by (by rewrite <- lookup_drop, E).
  rewrite Nat.add_0_r in Hc. by rewrite Hc in H.
Qed.

Lemma trimStart_app s b :
  trimStart s <> [] -> trimStart (s ++ b) = trimStart s ++ b.
Proof.
  unfold trimStart. induction s as [|c s IH]; [done|]. simpl.
  destruct (isJSSpace c); simpl; [exact IH | done].
Qed.

Lemma trim_spaces a s b :
  forallb isJSSpace a = true -> forallb isJSSpace b = true ->
  trim (a ++ s ++ b) = trim s.
Proof.
  intros Ha Hb. unfold trim. rewrite trimStart_spaces by done.
  assert (Hrb : forallb isJSSpace (rev b) = true).
  { rewrite forallb_forall in *. intros x Hx. apply Hb. by apply in_rev. }
  destruct (trimStart s) as [|c t] eqn:E.
  - assert (Hs : forallb isJSSpace s = true).
    { unfold trimStart in E. pose proof (run_length_take isJSSpace s) as Ht.
      pose proof (run_length_le isJSSpace s) as Hle.
      assert (length (drop (run_length isJSSpace s) s) = 0) by (by rewrite E).
      rewrite length_drop in H. rewrite take_ge in Ht by lia. done. }
    rewrite (trimStart_all_spaces (s ++ b))
      by (rewrite forallb_app; by rewrite Hs, Hb).
    done.
  - rewrite trimStart_app by (by rewrite E). rewrite E.
    rewrite rev_app_distr. by rewrite trimStart_spaces.
Qed.

Lemma trim_id s :
  match s with c :: _ => isJSSpace c = false | [] => True end ->
  match rev s with c :: _ => isJSSpace c = false | [] => True end ->
  trim s = s.
Proof.
  intros H1 H2. unfold trim. rewrite (trimStart_id s) by done.
  rewrite (trimStart_id (rev s)) by done. apply rev_involutive.
Qed.

(** X3. The result of [toClosingTag] is the empty string or "</", a name
    and ">", where the name is not empty, is made of the units [a-zA-Z0-9:-]
    only, and is the whole run of such units that follows '<' and optional
    white space in the trimmed argument: no attribute and no white space gets
    into the result. *)
Theorem toClosingTag_result_shape (opening : jsstring) :
  toClosingTag opening = []
  \/ exists sp name rest,
       trim opening = [LT] ++ sp ++ name ++ rest
       /\ forallb isJSSpace sp = true
       /\ name <> [] /\ forallb isTagNameChar name = true
       /\ match rest with c :: _ => isTagNameChar c = false | [] => True end
       /\ toClosingTag opening = [LT; SLASH] ++ name ++ [GT].
Proof.
  unfold toClosingTag.
  destruct (negb _ || negb _); [by left|].
  destruct (_ || _); [by left|].
  destruct (execTagName (trim opening)) as [tag|] eqn:E; [|by left].
  right. unfold execTagName in E.
  destruct (trim opening) as [|c rest0]; [done|].
  destruct (N.eqb_spec c LT) as [->|]; [|done].
  set (sp := take (run_length isJSSpace rest0) rest0).
  set (rest' := drop (run_length isJSSpace rest0) rest0) in *.
  destruct (Nat.eqb_spec (run_length isTagNameChar rest') 0) as [E0 | E0]; [done|].
  injection E as <-.
  exists sp, (take (run_length isTagNameChar rest') rest'),
         (drop (run_length isTagNameChar rest') rest').
  split; [|split; [|split; [|split; [|split]]]].
  - unfold sp, rest'. by rewrite !take_drop.
  - apply run_length_take.
  - intros Ht. apply (f_equal length) in Ht. rewrite length_take in Ht.
    pose proof (run_length_le isTagNameChar rest'). simpl in Ht. lia.
  - apply run_length_take.
  - pose proof (run_length_stop isTagNameChar rest') as Hs.
    destruct (drop (run_length isTagNameChar rest') rest') as [|x t] eqn:Ed; [done|].
    assert (Hx : rest' !! (run_length isTagNameChar rest' + 0) = Some x)
      by (by rewrite <- lookup_drop, Ed).
    rewrite Nat.add_0_r in Hx. by rewrite Hx in Hs.
  - done.
Qed.

(** X4. White space around the argument is ignored: [toClosingTag] gives the
    same result with and without it. *)
Theorem toClosingTag_ignores_outer_space (a s b : jsstring) :
  forallb isJSSpace a = true -> forallb isJSSpace b = true ->
  toClosingTag (a ++ s ++ b) = toClosingTag s.
Proof.
  intros Ha Hb. unfold toClosingTag. by rewrite trim_spaces.
Qed.

Lemma toClosingTag_ignores_outer_space_witness :
  toClosingTag (js " " ++ js "<ul>" ++ js "  ") = toClosingTag (js "<ul>").
Proof. apply toClosingTag_ignores_outer_space; reflexivity. Defined.

Lemma rev_head_last (x : jsstring) c : rev (x ++ [c]) = c :: rev x.
Proof. by rewrite rev_app_distr. Qed.

(** X5. Applied to its own result, [toClosingTag] gives the empty string, for
    every argument: a closing tag is not passed through. *)
Theorem toClosingTag_twice (opening : jsstring) :
  toClosingTag (toClosingTag opening) = [].
Proof.
  assert (H : toClosingTag opening = []
              \/ exists name, toClosingTag opening = [LT; SLASH] ++ name ++ [GT]).
  { unfold toClosingTag.
    destruct (negb _ || negb _); [by left|].
    destruct (_ || _); [by left|].
    destruct (execTagName (trim opening)) as [tag|]; [right; eauto | by left]. }
  destruct H as [-> | [name ->]]; [done|].
  apply toClosingTag_closing.
  rewrite trim_id; [done | done |].
  change ([LT; SLASH] ++ name ++ [GT]) with ((LT :: SLASH :: name) ++ [GT]).
  by rewrite rev_head_last.
Qed.

Lemma isTagNameChar_not_slash c : isTagNameChar c = true -> c <> SLASH.
Proof. intros H ->. done. Qed.

Lemma endsWith_gt_not_self_closing core x y :
  rev core = GT :: x :: y -> x <> SLASH ->
  endsWith [GT] core = true /\ endsWith [SLASH; GT] core = false.
Proof.
  intros Hrev Hx. unfold endsWith. rewrite Hrev. split; [done|].
  change (rev [SLASH; GT]) with [GT; SLASH]. cbn [prefixb].
  destruct (N.eqb_spec SLASH x); [congruence|]. by rewrite andb_false_r.
Qed.

(** X6. An opening tag with attributes: for "<", optional white space, a
    name, then attributes that do not go on with a name unit and do not end
    in "/", then ">", with white space around the whole, the result is "</",
    the name and ">". *)
Theorem toClosingTag_drops_attributes (a sp name attrs b : jsstring) :
  forallb isJSSpace a = true -> forallb isJSSpace b = true ->
  forallb isJSSpace sp = true ->
  name <> [] -> forallb isTagNameChar name = true ->
  match attrs with c :: _ => isTagNameChar c = false | [] => True end ->
  last attrs <> Some SLASH ->
  toClosingTag (a ++ ([LT] ++ sp ++ name ++ attrs ++ [GT]) ++ b)
  = [LT; SLASH] ++ name ++ [GT].
Proof.
  intros Ha Hb Hsp Hne Hname Hattrs Hlast.
  set (core := [LT] ++ sp ++ name ++ attrs ++ [GT]).
  assert (E : toClosingTag (a ++ core ++ b) = toClosingTag core)
    by (unfold toClosingTag; by rewrite trim_spaces).
  rewrite E. clear E.
  assert (Hrev : exists x y, rev core = GT :: x :: y /\ x <> SLASH).
  { unfold core.
    destruct (rev attrs) as [|x y] eqn:Er.
    - assert (attrs = []) as -> by (by apply (f_equal (@rev N)) in Er;
                                    rewrite rev_involutive in Er).
      destruct (rev name) as [|x y] eqn:En.
      + exfalso. apply Hne. apply (f_equal (@rev N)) in En.
        by rewrite rev_involutive in En.
      + exists x. eexists. split.
        * rewrite !rev_app_distr. simpl. rewrite En. simpl. reflexivity.
        * apply isTagNameChar_not_slash.
          rewrite forallb_forall in Hname. apply Hname, in_rev.
          rewrite En. by left.
    - exists x. eexists. split.
      + rewrite !rev_app_distr. simpl. rewrite Er. simpl. reflexivity.
      + intros ->. apply Hlast. rewrite <- (rev_involutive attrs), Er.
        simpl. by rewrite last_snoc. }
  destruct Hrev as (x & y & Hrev & Hx).
  assert (Htrim : trim core = core).
  { apply trim_id; [done|]. by rewrite Hrev. }
  destruct (endsWith_gt_not_self_closing _ _ _ Hrev Hx) as [Hgt Hself].
  destruct attrs as [|c attrs'].
  - apply (toClosingTag_opening core sp name GT []); rewrite ?Htrim; done.
  - apply (toClosingTag_opening core sp name c (attrs' ++ [GT]));
      rewrite ?Htrim; done.
Qed.

Lemma toClosingTag_drops_attributes_witness :
  toClosingTag (js " " ++ ([LT] ++ js " " ++ js "div" ++ js " class=plan" ++ [GT])
                ++ js "  ")
  = [LT; SLASH] ++ js "div" ++ [GT].
Proof.
  apply toClosingTag_drops_attributes; first [reflexivity | discriminate | exact I].
Defined.

(** ** matchLineSyntax, in general *)

Lemma matchLineSyntax_prefix (src : jsstring) i m :
  matchLineSyntax src i = Some m ->
  (exists r, drop i src = m_value m ++ r)
  /\ m_len m = length (m_value m)
  /\ 2 <= m_len m
  /\ i + m_len m <= length src.
Proof.
  intros Hm. apply matchLineSyntax_shape in Hm.
  destruct (line_shape_prefix _ _ Hm) as (r & Er & El).
  assert (H2 : 2 <= m_len m).
  { destruct (isFence m) eqn:Hf.
    - destruct (line_shape_fence _ _ Hm Hf) as [info E].
      rewrite El, E, length_app. simpl. lia.
    - destruct (line_shape_marker _ _ Hm Hf) as (body & E & Hne & _).
      rewrite El, E, length_app. destruct body; [done | simpl; lia]. }
  repeat split; [eauto | done | done |].
  apply (f_equal length) in Er. rewrite length_drop, length_app in Er. lia.
Qed.

(** X7. What [matchLineSyntax] returns is read off the source: [value] is
    the text [src.slice(i, i + len)], [len] is its length and is at least 2,
    the match lies within the source, a fence match begins with three
    backticks and any other match ends with a space. *)
Theorem matchLineSyntax_value (src : jsstring) (i : nat) (m : LineMatch) :
  matchLineSyntax src i = Some m ->
  m_value m = slice i (i + m_len m) src
  /\ m_len m = length (m_value m)
  /\ 2 <= m_len m
  /\ i + m_len m <= length src
  /\ (if isFence m then startsWith FENCE 0 (m_value m) = true
      else last (m_value m) = Some SPACE).
Proof.
  intros Hm.
  destruct (matchLineSyntax_prefix _ _ _ Hm) as ([r Er] & El & H2 & Hle).
  repeat split; [| done | done | done |].
  - rewrite slice_drop, Er, El. by rewrite take_app_length.
  - apply matchLineSyntax_shape in Hm. destruct (isFence m) eqn:Hf.
    + destruct (line_shape_fence _ _ Hm Hf) as [info ->].
      unfold startsWith. rewrite drop_0. apply prefixb_spec. eauto.
    + destruct (line_shape_marker _ _ Hm Hf) as (body & -> & _).
      apply last_snoc.
Qed.

Lemma matchLineSyntax_value_witness :
  js "12) " = slice 2 (2 + 4) (js "a 12) b")
  /\ 4 = length (js "12) ")
  /\ 2 <= 4
  /\ 2 + 4 <= length (js "a 12) b")
  /\ last (js "12) ") = Some SPACE.
Proof.
  apply (matchLineSyntax_value (js "a 12) b") 2
           {| m_value := js "12) "; m_len := 4; isFence := false |}).
  reflexivity.
Defined.

(** X8. Near the end of the source and past it [matchLineSyntax] returns
    null: with fewer than two units from [i] on there is no match, and
    nothing is read as a marker out of range. *)
Theorem matchLineSyntax_short (src : jsstring) (i : nat) :
  length src < i + 2 -> matchLineSyntax src i = None.
Proof.
  intros Hlen. destruct (matchLineSyntax src i) as [m|] eqn:E; [|done].
  destruct (matchLineSyntax_prefix _ _ _ E) as (_ & _ & H2 & Hle). lia.
Qed.

Lemma matchLineSyntax_short_witness :
  matchLineSyntax (js "ab#") 2 = None.
Proof. apply matchLineSyntax_short. simpl. lia. Defined.

(** X9. Seven hashes or more are no heading and no other marker, whatever
    follows them. *)
Theorem matchLineSyntax_seven_hashes (src : jsstring) (i : nat) :
  startsWith (hashes 7) i src = true -> matchLineSyntax src i = None.
Proof.
  intros H. apply prefixb_spec in H as [r Hr].
  rewrite matchLineSyntax_drop, Hr. reflexivity.
Qed.

Lemma matchLineSyntax_seven_hashes_witness :
  matchLineSyntax (js "####### x") 0 = None.
Proof. apply matchLineSyntax_seven_hashes. reflexivity. Defined.

Lemma fence_match_end (src : jsstring) i m :
  matchLineSyntax src i = Some m -> isFence m = true ->
  i + m_len m = length src
  \/ (last (m_value m) = Some LF /\ atLineStart src (i + m_len m) = true).
Proof.
  intros Hm Hf.
  destruct (matchLineSyntax_prefix _ _ _ Hm) as ([r Er] & El & H2 & Hle).
  apply matchLineSyntax_shape in Hm.
  remember (drop i src) as s eqn:Es.
  destruct Hm as [| | | | info rest Hi Hr]; try discriminate.
  destruct Hr as [-> | [t ->]].
  - left. apply (f_equal length) in Es. rewrite length_drop in Es.
    simpl in *. rewrite !length_app in *. simpl in *. lia.
  - right. change (take 1 (LF :: t)) with [LF] in *. cbn [m_value m_len] in *.
    assert (Hl : length (FENCE ++ info ++ [LF]) = 3 + length info + 1)
      by (rewrite !length_app; simpl; lia).
    split.
    + rewrite app_assoc. apply last_snoc.
    + unfold atLineStart. apply orb_true_iff. right. apply is_ch_Some.
      rewrite Hl.
      replace (i + (3 + length info + 1) - 1) with (i + (3 + length info)) by lia.
      rewrite <- lookup_drop, <- Es.
      rewrite app_assoc, lookup_app_r by (rewrite length_app; simpl; lia).
      rewrite length_app. change (length FENCE) with 3.
      by rewrite Nat.sub_diag.
Qed.

(** X10. A fence match is one line: it holds no newline before its last
    unit, and it ends at the end of the source or with the newline, so that
    the cursor after it is at a start of line. *)
Theorem matchLineSyntax_fence_line (src : jsstring) (i : nat) (m : LineMatch) :
  matchLineSyntax src i = Some m -> isFence m = true ->
  (forall j, j + 1 < m_len m -> m_value m !! j <> Some LF)
  /\ (i + m_len m = length src
      \/ (last (m_value m) = Some LF /\ atLineStart src (i + m_len m) = true)).
Proof.
  intros Hm Hf. split; [|by apply fence_match_end].
  destruct (matchLineSyntax_prefix _ _ _ Hm) as ([r Er] & El & H2 & Hle).
  apply matchLineSyntax_shape in Hm.
  intros j Hj Hl. apply (line_shape_no_newline _ _ j Hm Hj).
  rewrite Er, lookup_app_l by lia. done.
Qed.

Lemma matchLineSyntax_fence_line_witness :
  (forall j, j + 1 < 6 -> (js "```js" ++ [LF]) !! j <> Some LF)
  /\ (0 + 6 = length (js_lines ["```js"; "x"]%string)
      \/ (last (js "```js" ++ [LF]) = Some LF
          /\ atLineStart (js_lines ["```js"; "x"]%string) (0 + 6) = true)).
Proof.
  apply (matchLineSyntax_fence_line (js_lines ["```js"; "x"]%string) 0
           {| m_value := js "```js" ++ [LF]; m_len := 6; isFence := true |});
    reflexivity.
Defined.

(** ** The mark stack *)

Lemma Mark_eqb_eq a b : Mark_eqb a b = true <-> a = b.
Proof. destruct a, b; simpl; split; congruence. Qed.

Lemma top_is_last s k : top_is s k = true <-> last s = Some k.
Proof.
  unfold top_is. destruct (last s) as [k'|]; [|split; discriminate].
  rewrite Mark_eqb_eq. split; congruence.
Qed.

Lemma toggle_stack k st tok st' :
  toggle k (closeFor k) st = (tok, st') ->
  top_is (stack st) CODE = false ->
  (exists k, kind tok = KOpen /\ value tok = closeFor k
             /\ top_is (stack st) k = false /\ top_is (stack st) CODE = false
             /\ stack st' = push k (stack st))
  \/ (exists k, kind tok = KClose /\ value tok = closeFor k
                /\ top_is (stack st) k = true /\ stack st' = pop (stack st)).
Proof.
  unfold toggle. intros H Hcode. destruct (top_is (stack st) k) eqn:Ht;
    injection H as <- <-; [right | left]; exists k; by repeat split.
Qed.

Lemma markStep_stack src st tok st' :
  markStep src st = Some (tok, st') ->
  (exists k, kind tok = KOpen /\ value tok = closeFor k
             /\ top_is (stack st) k = false /\ top_is (stack st) CODE = false
             /\ stack st' = push k (stack st))
  \/ (exists k, kind tok = KClose /\ value tok = closeFor k
                /\ top_is (stack st) k = true /\ stack st' = pop (stack st)).
Proof.
  unfold markStep, inInlineCode.
  destruct (top_is (stack st) CODE) eqn:Hcode; cbn [negb].
  - destruct (is_ch (src !! i st) BACKTICK); [|discriminate].
    intros [= <- <-]. right. exists CODE. by repeat split.
  - destruct (_ && _);
      [intros [= H]; apply (toggle_stack STRONG) in H; [by rewrite Hcode in H | done]|].
    destruct (_ && _);
      [intros [= H]; apply (toggle_stack EM) in H; [by rewrite Hcode in H | done]|].
    destruct (is_ch _ UNDERSCORE);
      [intros [= H]; apply (toggle_stack UNDER) in H; [by rewrite Hcode in H | done]|].
    destruct (is_ch _ BACKTICK); [|discriminate].
    intros [= H]. apply (toggle_stack CODE) in H; [by rewrite Hcode in H | done].
Qed.

Lemma step_stack_cases seg src opts st tok st' :
  step seg src opts st = Some (tok, st') ->
  stack st' = stack st \/ markStep src st = Some (tok, st').
Proof.
  intros Hs.
  destruct (step_branch _ _ _ _ _ _ Hs) as [H | _ _ H | _ _ H | _ _ _ H | _ _ _ _ H].
  - left. apply lineStep_inv in H as (_ & m & _ & [(_ & _ & ->) | (_ & _ & _ & ->)]);
      done.
  - left. by apply displayStep_inv in H as (_ & -> & _).
  - left. by apply htmlStep_inv in H as (_ & _ & _ & ->).
  - by right.
  - left. by apply displayStep_inv in H as (_ & -> & _).
Qed.

Lemma stack_ok_snoc s k :
  stack_ok (s ++ [k])
  = stack_ok s
    && match last s with
       | Some a => negb (Mark_eqb a k) && negb (Mark_eqb a CODE)
       | None => true
       end.
Proof.
  induction s as [|a s IH]; [done|].
  destruct s as [|b t]; [simpl; by rewrite andb_true_r|].
  change (stack_ok ((a :: b :: t) ++ [k]))
    with (negb (Mark_eqb a b) && negb (Mark_eqb a CODE)
          && stack_ok ((b :: t) ++ [k])).
  rewrite IH.
  change (stack_ok (a :: b :: t))
    with (negb (Mark_eqb a b) && negb (Mark_eqb a CODE) && stack_ok (b :: t)).
  change (last (a :: b :: t)) with (last (b :: t)).
  by rewrite andb_assoc.
Qed.

Lemma stack_ok_removelast s : stack_ok s = true -> stack_ok (removelast s) = true.
Proof.
  induction s as [|a s IH]; [done|].
  destruct s as [|b t]; [done|].
  change (stack_ok (a :: b :: t))
    with (negb (Mark_eqb a b) && negb (Mark_eqb a CODE) && stack_ok (b :: t)).
  intros [Hab Ht]%andb_true_iff.
  change (removelast (a :: b :: t)) with (a :: removelast (b :: t)).
  specialize (IH Ht). destruct t as [|c t]; [done|].
  change (removelast (b :: c :: t)) with (b :: removelast (c :: t)) in *.
  change (stack_ok (a :: b :: removelast (c :: t)))
    with (negb (Mark_eqb a b) && negb (Mark_eqb a CODE)
          && stack_ok (b :: removelast (c :: t))).
  by rewrite Hab, IH.
Qed.

Lemma step_stack_ok seg src opts st tok st' :
  step seg src opts st = Some (tok, st') ->
  stack_ok (stack st) = true -> stack_ok (stack st') = true.
Proof.
  intros Hs Hok. destruct (step_stack_cases _ _ _ _ _ _ Hs) as [-> | Hm]; [done|].
  destruct (markStep_stack _ _ _ _ Hm)
    as [(k & _ & _ & Ht & Hc & ->) | (k & _ & _ & _ & ->)].
  - unfold push. rewrite stack_ok_snoc, Hok. unfold top_is in Ht, Hc.
    destruct (last (stack st)) as [a|]; [|done]. by rewrite Ht, Hc.
  - by apply stack_ok_removelast.
Qed.

(** An invariant of the turns holds at every entry of a run. *)
Lemma run_from_invariant seg src opts (I : State -> Prop) st tr :
  (forall s tok s', I s -> step seg src opts s = Some (tok, s') -> I s') ->
  I st -> run_from seg src opts st tr -> Forall (fun e => I e.1) tr.
Proof.
  intros Hstep H0 Hrun. induction Hrun as [|st tok st' rest Hlt Hs Hr IH];
    constructor; [done|]. apply IH. eauto.
Qed.

(** X12. Throughout a scan the mark stack never holds the same mark twice in
    a row and never holds anything above a code-span mark: inside a code span
    no mark is opened. *)
Theorem stack_stays_ok (seg : option Segmenter) (src : jsstring)
    (opts : Options) (tr : list (State * Token)) :
  trace seg src opts = Some tr ->
  Forall (fun e => stack_ok (stack e.1) = true) tr.
Proof.
  intros Htr. apply trace_run in Htr.
  apply (run_from_invariant seg src opts
           (fun s => stack_ok (stack s) = true) initialState); [|done|done].
  intros s tok s' Hok Hs. by apply (step_stack_ok _ _ _ _ _ _ Hs).
Qed.

Lemma stack_stays_ok_witness :
  Forall (fun e => stack_ok (stack e.1) = true)
    [({| stack := []; i := 0; inFence := false |}, mkTok Syntax KOpen "*");
     ({| stack := [EM]; i := 1; inFence := false |}, mkTok Syntax KOpen "`");
     ({| stack := [EM; CODE]; i := 2; inFence := false |}, mkTok Display KDefault "*");
     ({| stack := [EM; CODE]; i := 3; inFence := false |}, mkTok Syntax KClose "`")].
Proof. apply (stack_stays_ok None (js "*`*`") defaultOptions). reflexivity. Defined.

(** ** Tokens and the states of their turns *)

(** Along a run, a quantity of the state that each turn updates from its
    token is, at every entry, the fold of the tokens before it. *)
Lemma run_from_fold seg src opts {A} (f : A -> Token -> A) (g : State -> A)
    st tr pre e post :
  (forall s tok s', i s < length src ->
                    step seg src opts s = Some (tok, s') -> g s' = f (g s) tok) ->
  run_from seg src opts st tr -> tr = pre ++ e :: post ->
  g e.1 = fold_left f (map snd pre) (g st)
  /\ run_from seg src opts e.1 (e :: post).
Proof.
  intros Hf Hrun. revert pre. induction Hrun as [|st tok st' rest Hlt Hs Hr IH];
    intros pre E.
  - by destruct pre.
  - destruct pre as [|p pre]; simpl in E; injection E as <- ->.
    + split; [done|]. by econstructor.
    + destruct (IH pre eq_refl) as [Hg Hrun]. split; [|done].
      simpl. by rewrite Hg, (Hf _ _ _ Hlt Hs).
Qed.

Lemma fold_left_offsets toks n :
  fold_left (fun k (tok : Token) => k + length (value tok)) toks n
  = n + length (joined toks).
Proof.
  revert n. induction toks as [|t toks IH]; intros n; simpl; [unfold joined; simpl; lia|].
  rewrite IH. unfold joined. simpl. rewrite length_app. lia.
Qed.

Lemma fold_left_flag toks b :
  fold_left (fun f tok => if isFenceLine tok then negb f else f) toks b
  = flag_after b toks.
Proof. revert b. induction toks as [|t toks IH]; intros b; simpl; [done|apply IH]. Qed.

Lemma step_cursor seg src opts st tok st' :
  graphemes_ok seg -> i st < length src ->
  step seg src opts st = Some (tok, st') ->
  i st' = i st + length (value tok)
  /\ value tok <> []
  /\ head (value tok) = src !! i st
  /\ value tok = slice (i st) (i st + length (value tok)) src.
Proof.
  intros Hok Hlt Hs.
  pose proof (step_consumes seg src opts Hok _ _ _ Hlt Hs) as Hc.
  destruct (consumes_cursor src _ _ _ Hc) as (_ & Hv & _).
  destruct Hc as ([r Hr] & Hi & Hne).
  repeat split; [done | done | | by rewrite <- Hi].
  destruct (value tok) as [|c v]; [done|]. simpl.
  by rewrite <- (Nat.add_0_r (i st)), <- lookup_drop, Hr.
Qed.

(** X13. Each token sits where the tokens before it end: the cursor of its
    turn is the total length of the values emitted so far, and its value is
    the text of the source from there. *)
Theorem token_offsets (seg : option Segmenter) (src : jsstring) (opts : Options)
    (tr pre post : list (State * Token)) (e : State * Token) :
  graphemes_ok seg ->
  trace seg src opts = Some tr -> tr = pre ++ e :: post ->
  i e.1 = length (joined (map snd pre))
  /\ value e.2 = slice (i e.1) (i e.1 + length (value e.2)) src.
Proof.
  intros Hok Htr E. apply trace_run in Htr.
  assert (Hin : e ∈ tr) by (rewrite E; apply elem_of_app; right; apply list_elem_of_here).
  destruct e as [st tok].
  destruct (run_from_steps _ _ _ _ _ _ _ Htr Hin) as (Hlt & st' & Hs).
  destruct (step_cursor _ _ _ _ _ _ Hok Hlt Hs) as (_ & _ & _ & Hv).
  split; [|done].
  destruct (run_from_fold seg src opts
              (fun k (t : Token) => k + length (value t)) i _ _ _ _ _
              ltac:(intros s t s' Hl Hst; cbv beta;
                    apply (step_cursor _ _ _ _ _ _ Hok Hl Hst))
              Htr E) as [H _].
  cbn [fst] in *. by rewrite H, fold_left_offsets.
Qed.

Lemma token_offsets_witness :
  i (({| stack := []; i := 3; inFence := false |}, mkTok Display KDefault "b").1)
  = length (joined (map snd
      [({| stack := []; i := 0; inFence := false |}, mkTok Syntax KLine "- ");
       ({| stack := []; i := 2; inFence := false |}, mkTok Display KDefault "a")]))
  /\ value (mkTok Display KDefault "b") = slice 3 (3 + 1) (js "- ab").
Proof.
  eapply (token_offsets None (js "- ab") defaultOptions _ _ []); [exact I | | ];
    reflexivity.
Defined.

(** X14. The fence flag can be read off the tokens: at every turn it is what
    the fence lines emitted so far make it, each of them turning it over,
    starting with the flag down. *)
Theorem fence_flag_from_tokens (seg : option Segmenter) (src : jsstring)
    (opts : Options) (tr pre post : list (State * Token)) (e : State * Token) :
  trace seg src opts = Some tr -> tr = pre ++ e :: post ->
  inFence e.1 = flag_after false (map snd pre).
Proof.
  intros Htr E. apply trace_run in Htr.
  destruct (run_from_fold seg src opts
              (fun f tok => if isFenceLine tok then negb f else f) inFence
              _ _ _ _ _
              ltac:(intros s tok s' _ Hs; cbv beta; apply step_fence_flag in Hs;
                    destruct (isFenceLine tok); [done | apply Hs])
              Htr E) as [H _].
  by rewrite H, fold_left_flag.
Qed.

Lemma fence_flag_from_tokens_witness :
  inFence (({| stack := []; i := 4; inFence := true |}, mkTok Display KDefault "#").1)
  = flag_after false (map snd
      [({| stack := []; i := 0; inFence := false |},
        {| type := Syntax; kind := KLine; value := js "```" ++ [LF] |})]).
Proof.
  eapply (fence_flag_from_tokens None (js_lines ["```"; "#"]%string) defaultOptions
            _ _ []); reflexivity.
Defined.

Lemma step_ws_kind seg src opts st tok st' :
  step seg src opts st = Some (tok, st') -> kind tok = KWhitespace ->
  isWS_at (src !! i st) = true.
Proof.
  intros Hs Hk.
  destruct (step_branch _ _ _ _ _ _ Hs) as [H | _ _ H | _ _ H | _ _ _ H | _ _ _ _ H].
  - apply lineStep_inv in H as (_ & m & _ & [(_ & -> & _) | (_ & _ & -> & _)]);
      discriminate.
  - by apply displayStep_ws in H.
  - apply htmlStep_inv in H as (_ & [E | E] & _); congruence.
  - apply markStep_inv in H as (_ & [E | E] & _); congruence.
  - by apply displayStep_ws in H.
Qed.

(** X15. Two whitespace tokens never follow one another: the token after a
    whitespace token is of another kind. *)
Theorem no_adjacent_whitespace (seg : option Segmenter) (src : jsstring)
    (opts : Options) (tr pre post : list (State * Token)) (e1 e2 : State * Token) :
  trace seg src opts = Some tr -> tr = pre ++ e1 :: e2 :: post ->
  kind e1.2 = KWhitespace -> kind e2.2 <> KWhitespace.
Proof.
  intros Htr E Hk1 Hk2. apply trace_run in Htr.
  destruct e1 as [st1 tok1], e2 as [st2 tok2]. cbn [fst snd] in *.
  destruct (run_from_fold seg src opts (fun (u : unit) _ => u) (fun _ => tt)
              _ _ _ _ _ ltac:(done) Htr E) as [_ Hrun].
  cbn [fst] in Hrun.
  inversion Hrun as [|? ? st2' ? Hlt1 Hs1 Hr1]; subst.
  inversion Hr1 as [|? ? st3 ? Hlt2 Hs2 Hr2]; subst.
  pose proof (step_ws_kind _ _ _ _ _ _ Hs1 Hk1) as Hw1.
  pose proof (step_ws_kind _ _ _ _ _ _ Hs2 Hk2) as Hw2.
  rewrite step_at_ws in Hs1 by done. injection Hs1 as _ <-.
  simpl in Hw2. unfold readWS in Hw2.
  pose proof (run_length_stop isWS (drop (i st1) src)) as Hstop.
  rewrite lookup_drop in Hstop.
  destruct (src !! (i st1 + run_length isWS (drop (i st1) src))); [|done].
  simpl in Hw2. congruence.
Qed.

Lemma no_adjacent_whitespace_witness :
  kind (mkTok Display KDefault "b") <> KWhitespace.
Proof.
  eapply (no_adjacent_whitespace None (js "a  b") defaultOptions _
           [({| stack := []; i := 0; inFence := false |}, mkTok Display KDefault "a")]
           []
           ({| stack := []; i := 1; inFence := false |}, mkTok Display KWhitespace "  ")
           ({| stack := []; i := 3; inFence := false |}, mkTok Display KDefault "b"));
    reflexivity.
Defined.

Lemma displayStep_default seg src st tok st' :
  displayStep seg src st = Some (tok, st') -> kind tok = KDefault ->
  isWS_at (src !! i st) = false.
Proof.
  unfold displayStep. destruct (isWS_at (src !! i st)); [|done].
  intros [= <- _]. discriminate.
Qed.

Lemma htmlStep_at src st tok st' :
  htmlStep src st = Some (tok, st') -> src !! i st = Some LT.
Proof.
  unfold htmlStep. destruct (_ && _) eqn:E; [|discriminate]. intros _.
  apply andb_true_iff in E as [_ E]. by apply is_ch_Some.
Qed.

Lemma displayStep_kind_fits seg src opts st tok st' :
  graphemes_ok seg -> i st < length src ->
  step seg src opts st = Some (tok, st') ->
  displayStep seg src st = Some (tok, st') ->
  kind_fits src st tok.
Proof.
  intros Hok Hlt Hs Hd.
  destruct (step_cursor _ _ _ _ _ _ Hok Hlt Hs) as (_ & Hne & Hh & _).
  destruct (displayStep_inv _ _ _ _ _ Hd) as (Ht & _ & [Hk | Hk]);
    unfold kind_fits; rewrite Hk.
  - pose proof (displayStep_ws _ _ _ _ _ Hd Hk) as Hws.
    rewrite step_at_ws in Hs by done. injection Hs as <- _.
    repeat split; [done|]. cbn [value wsToken]. rewrite slice_drop.
    apply run_length_take.
  - pose proof (displayStep_default _ _ _ _ _ Hd Hk) as Hws.
    split; [done|]. destruct (src !! i st) as [c|] eqn:Hc.
    + exists c. by split.
    + apply lookup_ge_None in Hc. lia.
Qed.

Lemma step_kind_fits seg src opts st tok st' :
  graphemes_ok seg -> i st < length src ->
  step seg src opts st = Some (tok, st') -> kind_fits src st tok.
Proof.
  intros Hok Hlt Hs.
  destruct (step_cursor _ _ _ _ _ _ Hok Hlt Hs) as (_ & Hne & Hh & _).
  destruct (step_branch _ _ _ _ _ _ Hs) as [H | _ _ H | _ _ H | _ _ _ H | _ _ _ _ H].
  - apply lineStep_inv in H as (Hsol & m & Hm & H).
    apply matchLineSyntax_shape, line_shape_head in Hm as (c & r & Ec & Hc).
    assert (Hi : src !! i st = Some c)
      by (by rewrite <- (Nat.add_0_r (i st)), <- lookup_drop, Ec).
    assert (Hkt : kind tok = KLine /\ type tok = Syntax)
      by (destruct H as [(_ & -> & _) | (_ & _ & -> & _)]; done).
    destruct Hkt as [Hk Ht]. unfold kind_fits. rewrite Hk.
    repeat split; [done | done |]. exists c. split; [congruence | done].
  - by apply (displayStep_kind_fits seg src opts st tok st').
  - pose proof (htmlStep_at _ _ _ _ H) as Hlt'.
    apply htmlStep_inv in H as (Ht & Hk & _).
    unfold kind_fits.
    destruct Hk as [-> | ->]; (split; [done|]); exists LT;
      (split; [congruence | by left]).
  - pose proof (markStep_inv _ _ _ _ H) as (Ht & _ & _).
    unfold kind_fits.
    destruct (markStep_stack _ _ _ _ H)
      as [(k & -> & Hv & _) | (k & -> & Hv & _)];
      (split; [done|]); rewrite Hv; destruct k; simpl; eauto 10.
  - by apply (displayStep_kind_fits seg src opts st tok st').
Qed.

(** X16. Every token begins as its kind says: a line token is a syntax
    token at a start of line that begins with a marker unit or a backtick; an
    open or close token is a syntax token that begins with '<', '*', '_' or a
    backtick; a whitespace token is a display token of white space only; a
    default token is a display token that does not begin with white space. *)
Theorem tokens_fit_their_kind (seg : option Segmenter) (src : jsstring)
    (opts : Options) (tr : list (State * Token)) :
  graphemes_ok seg -> trace seg src opts = Some tr ->
  Forall (fun e => kind_fits src e.1 e.2) tr.
Proof.
  intros Hok Htr. apply trace_run in Htr.
  apply (run_from_Forall seg src opts (kind_fits src) initialState); [|done].
  intros s tok s' Hlt Hs. by apply (step_kind_fits seg src opts s tok s').
Qed.

Lemma tokens_fit_their_kind_witness :
  Forall (fun e => kind_fits (js "> a <b>") e.1 e.2)
    [({| stack := []; i := 0; inFence := false |}, mkTok Syntax KLine "> ");
     ({| stack := []; i := 2; inFence := false |}, mkTok Display KDefault "a");
     ({| stack := []; i := 3; inFence := false |}, mkTok Display KWhitespace " ");
     ({| stack := []; i := 4; inFence := false |}, mkTok Syntax KOpen "<b>")].
Proof.
  apply (tokens_fit_their_kind None (js "> a <b>") defaultOptions);
    [exact I | reflexivity].
Defined.

(** ** The segmenter and ASCII text *)

Lemma step_seg_agree_at seg1 seg2 src opts st :
  (isWS_at (src !! i st) = false ->
   head (graphemes seg1 (drop (i st) src)) = head (graphemes seg2 (drop (i st) src))) ->
  step seg1 src opts st = step seg2 src opts st.
Proof.
  intros H. unfold step, displayStep.
  destruct (isWS_at (src !! i st)); [done|]. by rewrite H.
Qed.

Lemma scan_seg_agree_at seg1 seg2 src opts fuel st :
  (forall p, p < length src -> isWS_at (src !! p) = false ->
     head (graphemes seg1 (drop p src)) = head (graphemes seg2 (drop p src))) ->
  scan seg1 src opts fuel st = scan seg2 src opts fuel st.
Proof.
  intros H. revert st. induction fuel as [|fuel IH]; intros st; simpl; [done|].
  destruct (Nat.leb (length src) (i st)) eqn:E; [done|].
  apply Nat.leb_gt in E.
  rewrite (step_seg_agree_at seg1 seg2) by auto.
  destruct (step seg2 src opts st) as [[tok st']|]; [|done]. by rewrite IH.
Qed.

Lemma low_not_lead c : (c < 128)%N -> isLeadSurrogate c = false.
Proof.
  intros H. unfold isLeadSurrogate. apply andb_false_iff. left.
  apply N.leb_gt. lia.
Qed.

(** X17. On a source of ASCII units only, a host segmenter that clusters
    ASCII text as Unicode does changes nothing: the tokens are those of the
    fallback.  The segmenter is never asked at a CR, which is white space. *)
Theorem ascii_stream_same (seg : option Segmenter) (src : jsstring)
    (opts : Options) :
  graphemes_ascii seg -> Forall (fun c => (c < 128)%N) src ->
  createUnifiedStream seg src opts = createUnifiedStream None src opts.
Proof.
  intros Hseg Hlow.
  enough (E : trace seg src opts = trace None src opts)
    by (unfold createUnifiedStream, createUnifiedStreamSync; by rewrite E).
  destruct seg as [sg|]; [|done]. destruct Hseg as [Hok Hascii].
  apply scan_seg_agree_at. intros p Hp Hws. simpl.
  destruct (src !! p) as [c|] eqn:Hc; [|apply lookup_ge_None in Hc; lia].
  rewrite (drop_S _ _ _ Hc).
  rewrite Forall_forall in Hlow.
  assert (Hclow : (c < 128)%N)
    by (apply Hlow, (list_elem_of_lookup_2 _ p); done).
  destruct (drop (S p) src) as [|d r] eqn:Ed.
  - by apply segmenter_single.
  - assert (Hd : src !! S p = Some d).
    { rewrite <- (Nat.add_0_r (S p)), <- lookup_drop, Ed. done. }
    assert (Hdlow : (d < 128)%N)
      by (apply Hlow, (list_elem_of_lookup_2 _ (S p)); done).
    rewrite Hascii; [|done|done|].
    + simpl. by rewrite (low_not_lead c).
    + left. intros ->. simpl in Hws. done.
Qed.

Lemma unitSegmenter_ascii : graphemes_ascii (Some unitSegmenter).
Proof.
  split; [|by intros c d r _ _ _].
  intros s. unfold unitSegmenter. cbn [segment]. split.
  - induction s as [|c s IH]; [done|]. cbn [map concat app]. by rewrite IH.
  - induction s as [|c s IH]; cbn [map]; constructor; done.
Qed.

Lemma ascii_stream_same_witness :
  createUnifiedStream (Some unitSegmenter) (js_lines ["# Hi"; "*x*"]%string)
    defaultOptions
  = createUnifiedStream None (js_lines ["# Hi"; "*x*"]%string) defaultOptions.
Proof.
  apply (ascii_stream_same (Some unitSegmenter)); [exact unitSegmenter_ascii|].
  repeat (constructor; [done|]). constructor.
Defined.

(** ** Tag tokens *)

(** X18. The token of step 2.5 is a tag as [toClosingTag] expects it: '<', a
    body without '>', and '>', with no white space to trim; its kind is close
    exactly when the body begins with '/', and then [toClosingTag] of its
    value is the empty string. *)
Theorem tag_token_shape (src : jsstring) (st : State) (tok : Token) (st' : State) :
  htmlStep src st = Some (tok, st') ->
  exists body,
    value tok = [LT] ++ body ++ [GT]
    /\ (GT ∉ body)
    /\ trim (value tok) = value tok
    /\ (kind tok = KClose <-> head body = Some SLASH)
    /\ (kind tok = KClose -> toClosingTag (value tok) = []).
Proof.
  intros H. pose proof (htmlStep_at _ _ _ _ H) as Hlt.
  unfold htmlStep in H. destruct (_ && _); [|discriminate].
  destruct (indexOf GT (i st + 1) src) as [k|] eqn:Hk; [|discriminate].
  apply indexOf_spec in Hk as (Hle & Hgt & Hmin).
  injection H as <- _. cbn [value kind].
  set (body := take (k - S (i st)) (drop (S (i st)) src)).
  assert (Hv : slice (i st) (k + 1) src = [LT] ++ body ++ [GT]).
  { unfold slice. rewrite (drop_S _ _ _ Hlt).
    replace (k + 1 - i st) with (S (S (k - S (i st)))) by lia.
    cbn [take app]. f_equal.
    apply take_S_r. rewrite lookup_drop.
    by replace (S (i st) + (k - S (i st))) with k by lia. }
  assert (Hbody : GT ∉ body).
  { intros Hin. apply list_elem_of_lookup in Hin as [j Hj].
    unfold body in Hj. apply lookup_take_Some in Hj as [Hj Hjlt].
    rewrite lookup_drop in Hj. apply (Hmin (S (i st) + j)); [lia | done]. }
  assert (Htrim : trim (slice (i st) (k + 1) src) = slice (i st) (k + 1) src).
  { rewrite Hv. apply trim_id; [done|].
    change ([LT] ++ body ++ [GT]) with ((LT :: body) ++ [GT]).
    by rewrite rev_head_last. }
  assert (Hclose : startsWith [LT; SLASH] 0 (slice (i st) (k + 1) src) = true
                   <-> head body = Some SLASH).
  { rewrite Hv. unfold startsWith. rewrite drop_0. cbn [app prefixb].
    destruct body as [|c b]; [done|]. cbn [app prefixb head].
    replace (N.eqb LT LT) with true by done. rewrite andb_true_r. cbn [andb].
    rewrite N.eqb_eq. split; congruence. }
  exists body. repeat split; [done | done | done | | |].
  - intros Hk. apply Hclose. by destruct (startsWith _ _ _).
  - intros Hh. apply Hclose in Hh. by rewrite Hh.
  - intros Hk. apply toClosingTag_closing. rewrite Htrim.
    by destruct (startsWith _ _ _).
Qed.

Lemma tag_token_shape_witness :
  exists body,
    js "</b>" = [LT] ++ body ++ [GT]
    /\ (GT ∉ body)
    /\ trim (js "</b>") = js "</b>"
    /\ (KClose = KClose <-> head body = Some SLASH)
    /\ (KClose = KClose -> toClosingTag (js "</b>") = []).
Proof.
  apply (tag_token_shape (js "a</b>") {| stack := []; i := 1; inFence := false |}
           (mkTok Syntax KClose "</b>")
           {| stack := []; i := 5; inFence := false |}).
  reflexivity.
Defined.

(** ** Surrogate pairs in the fallback *)

Lemma step_last_unit seg src opts st tok st' :
  graphemes_ok seg -> i st < length src ->
  step seg src opts st = Some (tok, st') ->
  src !! (i st' - 1) = last (value tok).
Proof.
  intros Hok Hlt Hs.
  destruct (step_consumes seg src opts Hok _ _ _ Hlt Hs) as ([r Hr] & Hi & Hne).
  assert (0 < length (value tok)) by (destruct (value tok); simpl; [done | lia]).
  rewrite last_lookup, Hi.
  replace (i st + length (value tok) - 1) with (i st + pred (length (value tok)))
    by lia.
  rewrite <- lookup_drop, Hr, lookup_app_l by lia. done.
Qed.

Lemma isMarkerUnit_low c : isMarkerUnit c = true -> (c < 128)%N.
Proof.
  intros H. apply isMarkerUnit_cases in H.
  unfold HASH, GT, DASH, PLUS, STAR, DOT, RPAREN in H. lia.
Qed.

Lemma isWS_low c : isWS c = true -> (c < 128)%N.
Proof.
  intros H. apply isWS_cases in H. unfold SPACE, TAB, LF, CR in H. lia.
Qed.

Lemma lead_not_trail c :
  isLeadSurrogate c = true -> isTrailSurrogate c = true -> False.
Proof.
  unfold isLeadSurrogate, isTrailSurrogate.
  rewrite !andb_true_iff, !N.leb_le. lia.
Qed.

Lemma last_elem_of {A} (l : list A) x : last l = Some x -> x ∈ l.
Proof. rewrite last_lookup. apply list_elem_of_lookup_2. Qed.

Lemma step_end_display src st tok st' c d :
  i st < length src ->
  displayStep None src st = Some (tok, st') ->
  src !! i st' = Some d -> last (value tok) = Some c ->
  isLeadSurrogate c = true -> isTrailSurrogate d = true -> False.
Proof.
  intros Hlt H Hd Hlast Hlead Htrail. unfold displayStep in H.
  destruct (isWS_at (src !! i st)).
  - injection H as <- _. cbn [value] in Hlast. rewrite slice_drop in Hlast.
    apply last_elem_of, list_elem_of_In in Hlast.
    pose proof (run_length_take isWS (drop (i st) src)) as Ht.
    rewrite forallb_forall in Ht. apply Ht, isWS_low, low_not_lead in Hlast.
    congruence.
  - destruct (src !! i st) as [c0|] eqn:Hc0; [|apply lookup_ge_None in Hc0; lia].
    rewrite (drop_S _ _ _ Hc0) in H. cbn [graphemes] in H.
    destruct (drop (S (i st)) src) as [|d0 r] eqn:Er.
    + cbn [codepoints head] in H. injection H as _ <-. cbn [i advance length] in Hd.
      assert (length (drop (S (i st)) src) = 0) by (by rewrite Er).
      rewrite length_drop in H. apply lookup_lt_Some in Hd. lia.
    + assert (Hd0 : src !! S (i st) = Some d0)
        by (by rewrite <- (Nat.add_0_r (S (i st))), <- lookup_drop, Er).
      change (codepoints (c0 :: d0 :: r))
        with (if isLeadSurrogate c0 && isTrailSurrogate d0
              then [c0; d0] :: codepoints r else [c0] :: codepoints (d0 :: r)) in H.
      destruct (isLeadSurrogate c0 && isTrailSurrogate d0) eqn:E;
        cbn [head] in H; injection H as <- <-; cbn [value] in Hlast;
        injection Hlast as <-.
      * apply andb_true_iff in E as [_ E]. by apply (lead_not_trail d0).
      * cbn [i advance length] in Hd. rewrite Nat.add_1_r, Hd0 in Hd.
        injection Hd as <-. by rewrite Hlead, Htrail in E.
Qed.

Lemma step_end_no_split src opts st tok st' :
  i st < length src ->
  step None src opts st = Some (tok, st') ->
  ~ splits_pair src (i st').
Proof.
  intros Hlt Hs (Hpos & c & d & Hc & Hd & Hlead & Htrail).
  pose proof (step_last_unit None src opts st tok st' I Hlt Hs) as Hlast.
  rewrite Hc in Hlast. symmetry in Hlast.
  assert (Hlow : (c < 128)%N -> False)
    by (intros Hl; apply low_not_lead in Hl; congruence).
  destruct (step_branch _ _ _ _ _ _ Hs) as [H | _ _ H | _ _ H | _ _ _ H | _ _ _ _ H].
  - apply lineStep_inv in H as (_ & m & Hm & H).
    pose proof (matchLineSyntax_shape _ _ _ Hm) as Hshape.
    destruct H as [(Hf & -> & ->) | (Hf & _ & -> & _)]; cbn [value lineToken i] in *.
    + destruct (fence_match_end _ _ _ Hm Hf) as [E | [E _]].
      * rewrite E in Hd. apply lookup_lt_Some in Hd. lia.
      * rewrite E in Hlast. injection Hlast as <-. by apply Hlow.
    + destruct (line_shape_marker _ _ Hshape Hf) as (body & Eb & Hne & Hb).
      rewrite Eb in Hlast. destruct (includeSpace opts).
      * rewrite last_snoc in Hlast. injection Hlast as <-. by apply Hlow.
      * rewrite replaceTrailingSpace_marker in Hlast by done.
        apply last_elem_of, list_elem_of_In in Hlast.
        rewrite forallb_forall in Hb. by apply Hlow, isMarkerUnit_low, Hb.
  - apply (step_end_display src st tok st' c d); done.
  - pose proof (htmlStep_inv _ _ _ _ H) as (_ & _ & _).
    unfold htmlStep in H. destruct (_ && _); [|discriminate].
    destruct (indexOf GT (i st + 1) src) as [k|] eqn:Hk; [|discriminate].
    apply indexOf_spec in Hk as (_ & Hgt & _).
    injection H as _ <-. cbn [i] in Hc.
    replace (k + 1 - 1) with k in Hc by lia. rewrite Hgt in Hc.
    injection Hc as <-. by apply Hlow.
  - destruct (markStep_stack _ _ _ _ H)
      as [(k & _ & Hv & _) | (k & _ & Hv & _)];
      rewrite Hv in Hlast; destruct k; injection Hlast as <-; by apply Hlow.
  - apply (step_end_display src st tok st' c d); done.
Qed.

(** X19. In the fallback no token boundary falls between the two halves of a
    surrogate pair: no turn of a scan starts between a lead surrogate and the
    trail surrogate that follows it. *)
Theorem surrogate_pairs_kept (src : jsstring) (opts : Options)
    (tr : list (State * Token)) :
  trace None src opts = Some tr ->
  Forall (fun e => ~ splits_pair src (i e.1)) tr.
Proof.
  intros Htr. apply trace_run in Htr.
  enough (H : forall st tr0, run_from None src opts st tr0 ->
                ~ splits_pair src (i st) ->
                Forall (fun e => ~ splits_pair src (i e.1)) tr0).
  { apply (H _ _ Htr). intros [Hpos _]. simpl in Hpos. lia. }
  clear. intros st tr0 Hrun.
  induction Hrun as [|st tok st' rest Hlt Hs Hr IH]; intros H0;
    constructor; [done|].
  apply IH. by apply (step_end_no_split src opts st tok st').
Qed.

Lemma surrogate_pairs_kept_witness :
  Forall (fun e => ~ splits_pair [97; 0xD83D; 0xDE00; 42]%N (i e.1))
    [({| stack := []; i := 0; inFence := false |}, mkTok Display KDefault "a");
     ({| stack := []; i := 1; inFence := false |},
      {| type := Display; kind := KDefault; value := [0xD83D; 0xDE00]%N |});
     ({| stack := []; i := 3; inFence := false |}, mkTok Syntax KOpen "*")].
Proof.
  apply (surrogate_pairs_kept [97; 0xD83D; 0xDE00; 42]%N defaultOptions).
  reflexivity.
Defined.

(** ** Marks opened and closed *)

Lemma htmlStep_head src st tok st' :
  htmlStep src st = Some (tok, st') -> head (value tok) = Some LT.
Proof.
  intros H. pose proof (htmlStep_at _ _ _ _ H) as Hlt.
  destruct (htmlStep_consumes src _ _ _ H) as ([r Hr] & _ & Hne).
  rewrite (drop_S _ _ _ Hlt) in Hr.
  destruct (value tok) as [|c v]; [done|]. by injection Hr as <-.
Qed.

Lemma closeFor_head k : is_ch (head (closeFor k)) LT = false.
Proof. by destruct k. Qed.

Lemma step_depth seg src opts st tok st' :
  step seg src opts st = Some (tok, st') ->
  length (stack st') + (if isMarkClose tok then 1 else 0)
  = length (stack st) + (if isMarkOpen tok then 1 else 0).
Proof.
  intros Hs. unfold isMarkOpen, isMarkClose.
  destruct (step_branch _ _ _ _ _ _ Hs) as [H | _ _ H | _ _ H | _ _ _ H | _ _ _ _ H].
  - apply lineStep_inv in H as (_ & m & _ & [(_ & -> & ->) | (_ & _ & -> & ->)]);
      done.
  - apply displayStep_inv in H as (_ & -> & [-> | ->]); done.
  - pose proof (htmlStep_head _ _ _ _ H) as Hh.
    apply htmlStep_inv in H as (_ & Hk & _ & ->). rewrite Hh.
    by destruct Hk as [-> | ->].
  - destruct (markStep_stack _ _ _ _ H)
      as [(k & -> & -> & _ & _ & ->) | (k & -> & -> & Ht & ->)];
      rewrite closeFor_head; cbn [negb].
    + unfold push. rewrite length_app. simpl. lia.
    + apply top_is_last in Ht. unfold pop.
      destruct (stack st) as [|a s] using rev_ind; [done|].
      rewrite removelast_last, length_app. simpl. lia.
  - apply displayStep_inv in H as (_ & -> & [-> | ->]); done.
Qed.

(** X11. The mark stack changes with the tokens of inline marks and with
    nothing else.  The open token of a mark pushes the mark whose delimiter
    is its value, and is emitted only when that mark is not on top and no
    code span is open; the close token of a mark pops the mark on top, and
    its value is the delimiter of that mark; the token of any other turn, a
    tag token among them, leaves the stack as it is.  So the stack changes
    exactly in the turns of mark tokens. *)
Theorem stack_changes_with_marks (seg : option Segmenter) (src : jsstring)
    (opts : Options) (st : State) (tok : Token) (st' : State) :
  step seg src opts st = Some (tok, st') ->
  (isMarkOpen tok = true ->
   exists k, value tok = closeFor k
             /\ last (stack st) <> Some k /\ last (stack st) <> Some CODE
             /\ stack st' = stack st ++ [k])
  /\ (isMarkClose tok = true ->
      exists k, value tok = closeFor k
                /\ last (stack st) = Some k
                /\ stack st' = removelast (stack st))
  /\ (isMarkOpen tok = false -> isMarkClose tok = false ->
      stack st' = stack st)
  /\ (stack st' <> stack st <-> isMarkOpen tok || isMarkClose tok = true).
Proof.
  intros Hs.
  assert (Hcases :
    (isMarkOpen tok = false /\ isMarkClose tok = false /\ stack st' = stack st)
    \/ (isMarkOpen tok = true /\ isMarkClose tok = false
        /\ exists k, value tok = closeFor k
                     /\ last (stack st) <> Some k /\ last (stack st) <> Some CODE
                     /\ stack st' = stack st ++ [k])
    \/ (isMarkOpen tok = false /\ isMarkClose tok = true
        /\ exists k, value tok = closeFor k
                     /\ last (stack st) = Some k
                     /\ stack st' = removelast (stack st))).
  { unfold isMarkOpen, isMarkClose.
    destruct (step_branch _ _ _ _ _ _ Hs) as [H | _ _ H | _ _ H | _ _ _ H | _ _ _ _ H].
    - left.
      apply lineStep_inv in H as (_ & m & _ & [(_ & -> & ->) | (_ & _ & -> & ->)]);
        done.
    - left. apply displayStep_inv in H as (_ & -> & [-> | ->]); done.
    - left. pose proof (htmlStep_head _ _ _ _ H) as Hh.
      apply htmlStep_inv in H as (_ & Hk & _ & ->). rewrite Hh.
      by destruct Hk as [-> | ->].
    - right. destruct (markStep_stack _ _ _ _ H)
        as [(k & -> & Hv & Ht & Hc & E) | (k & -> & Hv & Ht & E)];
        rewrite Hv, closeFor_head; cbn [negb]; [left | right];
        (split; [done|]); (split; [done|]); exists k.
      + repeat split; [| | done].
        * intros Hl. apply top_is_last in Hl. congruence.
        * intros Hl. apply top_is_last in Hl. congruence.
      + repeat split; [by apply top_is_last | done].
    - left. apply displayStep_inv in H as (_ & -> & [-> | ->]); done. }
  destruct Hcases as [(Ho & Hc & E) | [(Ho & Hc & k & Hv & H1 & H2 & E)
                                      | (Ho & Hc & k & Hv & H1 & E)]];
    rewrite Ho, Hc.
  - split; [discriminate|]. split; [discriminate|]. split; [done|].
    split; [by rewrite E | discriminate].
  - assert (Hne : stack st' <> stack st).
    { rewrite E. intros E'. apply (f_equal length) in E'.
      rewrite length_app in E'. simpl in E'. lia. }
    split; [intros _; by exists k|]. split; [discriminate|].
    split; [discriminate|]. done.
  - assert (Hne : stack st' <> stack st).
    { rewrite E. intros E'. destruct (stack st) as [|a s _] using rev_ind; [done|].
      rewrite removelast_last in E'. apply (f_equal length) in E'.
      rewrite length_app in E'. simpl in E'. lia. }
    split; [discriminate|]. split; [intros _; by exists k|].
    split; [discriminate|]. done.
Qed.

Lemma stack_changes_with_marks_witness :
  (exists k, [STAR; STAR] = closeFor k
             /\ last [EM] <> Some k /\ last [EM] <> Some CODE
             /\ [EM; STRONG] = [EM] ++ [k])
  /\ (exists k, [STAR] = closeFor k
                /\ last [EM] = Some k
                /\ [] = removelast [EM])
  /\ [EM] = [EM].
Proof.
  split; [|split].
  - destruct (stack_changes_with_marks None (js "*a**b") defaultOptions
                {| stack := [EM]; i := 2; inFence := false |}
                {| type := Syntax; kind := KOpen; value := [STAR; STAR] |}
                {| stack := [EM; STRONG]; i := 4; inFence := false |})
      as (H & _); [reflexivity|]. exact (H eq_refl).
  - destruct (stack_changes_with_marks None (js "*a*") defaultOptions
                {| stack := [EM]; i := 2; inFence := false |}
                {| type := Syntax; kind := KClose; value := [STAR] |}
                {| stack := []; i := 3; inFence := false |})
      as (_ & H & _); [reflexivity|]. exact (H eq_refl).
  - destruct (stack_changes_with_marks None (js "*<b>") defaultOptions
                {| stack := [EM]; i := 1; inFence := false |}
                (mkTok Syntax KOpen "<b>")
                {| stack := [EM]; i := 4; inFence := false |})
      as (_ & _ & H & _); [reflexivity|]. exact (H eq_refl eq_refl).
Defined.

(** X20. No mark is closed that was not opened: at every turn, the close
    tokens of inline marks emitted so far and the marks still on the stack
    add up to the open tokens of inline marks emitted so far. *)
Theorem marks_balance (seg : option Segmenter) (src : jsstring) (opts : Options)
    (tr pre post : list (State * Token)) (e : State * Token) :
  trace seg src opts = Some tr -> tr = pre ++ e :: post ->
  count_tokens isMarkOpen (map snd pre)
  = count_tokens isMarkClose (map snd pre) + length (stack e.1).
Proof.
  intros Htr E. apply trace_run in Htr.
  enough (H : forall st tr0, run_from seg src opts st tr0 ->
                forall pre0, tr0 = pre0 ++ e :: post ->
                count_tokens isMarkOpen (map snd pre0) + length (stack st)
                = count_tokens isMarkClose (map snd pre0) + length (stack e.1)).
  { specialize (H _ _ Htr pre E). simpl in H. lia. }
  clear. intros st tr0 Hrun.
  induction Hrun as [|st tok st' rest Hlt Hs Hr IH]; intros pre0 E.
  - by destruct pre0.
  - destruct pre0 as [|p pre0]; simpl in E; injection E as <- ->.
    + simpl. lia.
    + specialize (IH pre0 eq_refl). apply step_depth in Hs.
      cbn [map snd count_tokens]. lia.
Qed.

Lemma marks_balance_witness :
  count_tokens isMarkOpen (map snd
    [({| stack := []; i := 0; inFence := false |}, mkTok Syntax KOpen "<b>");
     ({| stack := []; i := 3; inFence := false |}, mkTok Syntax KOpen "*");
     ({| stack := [EM]; i := 4; inFence := false |}, mkTok Syntax KOpen "_");
     ({| stack := [EM; UNDER]; i := 5; inFence := false |}, mkTok Syntax KClose "_")])
  = count_tokens isMarkClose (map snd
    [({| stack := []; i := 0; inFence := false |}, mkTok Syntax KOpen "<b>");
     ({| stack := []; i := 3; inFence := false |}, mkTok Syntax KOpen "*");
     ({| stack := [EM]; i := 4; inFence := false |}, mkTok Syntax KOpen "_");
     ({| stack := [EM; UNDER]; i := 5; inFence := false |}, mkTok Syntax KClose "_")])
    + length (stack (({| stack := [EM]; i := 6; inFence := false |},
                      mkTok Display KDefault "x").1)).
Proof.
  eapply (marks_balance None (js "<b>*__x") defaultOptions _ _ []); reflexivity.
Defined.

(** ** Line tokens *)

(** X21. A line token is the whole text of a match of [matchLineSyntax] at
    its cursor, or that text without its last space: a fence line, which
    begins with three backticks, or, with the fence flag down, a non-empty
    run of marker units followed by a space exactly when
    [includeTrailingSpaceInLineSyntax] is not false. *)
Theorem line_tokens_shape (seg : option Segmenter) (src : jsstring)
    (opts : Options) (tr : list (State * Token)) :
  trace seg src opts = Some tr ->
  Forall (fun e =>
            kind e.2 = KLine ->
            (exists info, value e.2 = FENCE ++ info)
            \/ (inFence e.1 = false
                /\ exists body,
                     body <> [] /\ forallb isMarkerUnit body = true
                     /\ value e.2
                        = body ++ (if includeSpace opts then [SPACE] else []))) tr.
Proof.
  intros Htr. apply trace_run in Htr.
  apply (run_from_Forall seg src opts
           (fun s tok =>
              kind tok = KLine ->
              (exists info, value tok = FENCE ++ info)
              \/ (inFence s = false
                  /\ exists body,
                       body <> [] /\ forallb isMarkerUnit body = true
                       /\ value tok
                          = body ++ (if includeSpace opts then [SPACE] else [])))
           initialState); [|done].
  intros s tok s' _ Hs Hk. apply step_line_inv in Hs; [|done].
  apply lineStep_inv in Hs as (_ & m & Hm & H).
  apply matchLineSyntax_shape in Hm.
  destruct H as [(Hf & -> & _) | (Hf & Hnf & -> & _)].
  - left. by apply (line_shape_fence _ _ Hm).
  - right. split; [done|].
    destruct (line_shape_marker _ _ Hm Hf) as (body & Eb & Hne & Hb).
    exists body. repeat split; [done | done |]. cbn [value lineToken].
    rewrite Eb. destruct (includeSpace opts); [done|].
    by rewrite replaceTrailingSpace_marker, app_nil_r.
Qed.

Lemma line_tokens_shape_witness :
  Forall (fun e =>
            kind e.2 = KLine ->
            (exists info, value e.2 = FENCE ++ info)
            \/ (inFence e.1 = false
                /\ exists body,
                     body <> [] /\ forallb isMarkerUnit body = true
                     /\ value e.2 = body ++ []))
    [({| stack := []; i := 0; inFence := false |}, mkTok Syntax KLine "12.");
     ({| stack := []; i := 3; inFence := false |}, mkTok Display KWhitespace " ");
     ({| stack := []; i := 4; inFence := false |}, mkTok Display KDefault "a")].
Proof.
  apply (line_tokens_shape None (js "12. a")
           {| includeTrailingSpaceInLineSyntax := Some false |}).
  reflexivity.
Defined.

(** ** Default tokens in the fallback *)

(** X22. In the fallback a default display token is one code point: one
    code unit, or a lead and a trail surrogate. *)
Theorem default_tokens_code_points (src : jsstring) (opts : Options)
    (tr : list (State * Token)) :
  trace None src opts = Some tr ->
  Forall (fun e => kind e.2 = KDefault -> code_point (value e.2)) tr.
Proof.
  intros Htr. apply trace_run in Htr.
  apply (run_from_Forall None src opts
           (fun s tok => kind tok = KDefault -> code_point (value tok))
           initialState); [|done].
  intros s tok s' _ Hs Hk.
  assert (Hd : displayStep None src s = Some (tok, s')).
  { destruct (step_branch _ _ _ _ _ _ Hs) as [H | _ _ H | _ _ H | _ _ _ H | _ _ _ _ H];
      [| done | | | done].
    - apply lineStep_inv in H as (_ & m & _ & [(_ & -> & _) | (_ & _ & -> & _)]);
        discriminate.
    - apply htmlStep_inv in H as (_ & [E | E] & _); congruence.
    - apply markStep_inv in H as (_ & [E | E] & _); congruence. }
  unfold displayStep in Hd. destruct (isWS_at (src !! i s)).
  - injection Hd as <- _. discriminate.
  - cbn [graphemes] in Hd.
    pose proof (codepoints_shapes (drop (i s) src)) as Hsh.
    destruct (codepoints (drop (i s) src)) as [|g gs]; [done|].
    injection Hd as <- _. by inversion Hsh.
Qed.

Lemma default_tokens_code_points_witness :
  Forall (fun e => kind e.2 = KDefault -> code_point (value e.2))
    [({| stack := []; i := 0; inFence := false |},
      {| type := Display; kind := KDefault; value := [0xD83D; 0xDE00]%N |});
     ({| stack := []; i := 2; inFence := false |}, mkTok Display KDefault "a")].
Proof.
  apply (default_tokens_code_points [0xD83D; 0xDE00; 97]%N defaultOptions).
  reflexivity.
Defined.
